(** * SudoBot extension runtime: guild-scoped event dispatch, activation,
      loader, metadata cache and install pipeline.

    A shallow embedding of the [ExtensionManager] service and of the
    guild-id resolver table it is built on, with the properties the
    specification states about them. *)

From Stdlib Require Import Ascii ZArith.
From stdpp Require Import gmap strings list.

Open Scope string_scope.
Open Scope list_scope.

(** ** JavaScript values

    Event payloads are plain data plus a few nullary methods
    ([isDMBased()], [first()]).  A method is a property holding a function
    value; the model's functions take no argument and return a fixed value.
    [src] is the text a function value turns into when it is used as a
    property key. *)

#[warnings="-register-all"]
Inductive JsVal : Type :=
| JUndefined
| JNull
| JBool (b : bool)
| JStr (s : string)
| JFun (src : string) (ret : JsVal)
| JObj (props : list (string * JsVal)).

(** The completion of an evaluation: a value, or a thrown exception. *)
Inductive Completion (A : Type) : Type :=
| Normal (a : A)
| Throw (e : JsVal).
Arguments Normal {A} a.
Arguments Throw {A} e.

#[global] Instance Completion_bind : MBind Completion := λ A B k c,
  match c with
  | Normal a => k a
  | Throw e => Throw e
  end.

#[global] Instance Completion_ret : MRet Completion := λ A a, Normal a.

Definition TypeError (message : string) : JsVal :=
  JObj [("name", JStr "TypeError"); ("message", JStr message)].

Definition isNullish (v : JsVal) : bool :=
  match v with
  | JUndefined | JNull => true
  | _ => false
  end.

(** [lookupProp k props]: the first property named [k], [undefined] when
    there is none. *)
Fixpoint lookupProp (k : string) (props : list (string * JsVal)) : JsVal :=
  match props with
  | [] => JUndefined
  | (k', v) :: rest => if decide (k' = k) then v else lookupProp k rest
  end.

(** [v.k].  Reading a property of [undefined] or [null] throws, and the
    message names the receiver; primitives and functions have none of the
    properties the resolvers read. *)
Definition getProp (v : JsVal) (k : string) : Completion JsVal :=
  match v with
  | JUndefined =>
      Throw (TypeError ("Cannot read properties of undefined (reading '" +:+ k +:+ "')"))
  | JNull =>
      Throw (TypeError ("Cannot read properties of null (reading '" +:+ k +:+ "')"))
  | JObj props => Normal (lookupProp k props)
  | _ => Normal JUndefined
  end.

(** [v?.rest]: the whole chain after [?.] is skipped when [v] is nullish. *)
Definition optChain (v : JsVal) (rest : JsVal → Completion JsVal) : Completion JsVal :=
  if isNullish v then Normal JUndefined else rest v.

(** [a ?? b]. *)
Definition coalesce (a b : Completion JsVal) : Completion JsVal :=
  x ← a ; if isNullish x then b else Normal x.

(** [v.k()], where [receiver] is the text of the expression [v] stands
    for: the message of a failed call quotes it ([data.first is not a
    function]). *)
Definition callMethod (receiver : string) (v : JsVal) (k : string) : Completion JsVal :=
  f ← getProp v k ;
  match f with
  | JFun _ ret => Normal ret
  | _ => Throw (TypeError (receiver +:+ "." +:+ k +:+ " is not a function"))
  end.

(** [cond ? a : b] tests the truthiness of [cond]. *)
Definition truthy (v : JsVal) : bool :=
  match v with
  | JUndefined | JNull | JBool false | JStr EmptyString => false
  | _ => true
  end.

(** Array destructuring [[a, b, ...] = args]: a missing position is
    [undefined]. *)
Definition arg (i : nat) (args : list JsVal) : JsVal := nth i args JUndefined.

(** The values that are not objects. *)
Definition isPrimitive (v : JsVal) : bool :=
  match v with
  | JFun _ _ | JObj _ => false
  | _ => true
  end.

(** The string a value is turned into when it indexes an object
    ([config[guildId]]).  Guild ids are strings.  An object is shown the way
    the [toString] that every object inherits shows it; the conversion of an
    object that brings a [toString] or [valueOf] of its own, which may
    throw, is not followed. *)
Definition toPropertyKey (v : JsVal) : string :=
  match v with
  | JUndefined => "undefined"
  | JNull => "null"
  | JBool true => "true"
  | JBool false => "false"
  | JStr s => s
  | JFun src _ => src
  | JObj _ => "[object Object]"
  end.

(** ** The guild-id resolver table *)

Abbreviation Resolver := (list JsVal → Completion JsVal).

Record GuildIdResolverEntry : Type := {
  events : list string;
  resolver : Resolver
}.

Definition undefinedC : Completion JsVal := Normal JUndefined.

Definition guildIdResolvers : list GuildIdResolverEntry := [
  {| events := ["applicationCommandPermissionsUpdate"];
     resolver := fun args => let data := arg 0 args in getProp data "guildId" |};
  {| events := ["autoModerationActionExecution"; "autoModerationRuleCreate";
                "autoModerationRuleDelete"; "autoModerationRuleUpdate"];
     resolver := fun args => let data := arg 0 args in
       coalesce (optChain data (fun d => g ← getProp d "guild" ; getProp g "id"))
                undefinedC |};
  {| events := ["messageCreate"; "normalMessageCreate"; "normalMessageDelete";
                "normalMessageUpdate"; "messageDelete"; "messageUpdate";
                "interactionCreate"];
     resolver := fun args => let data := arg 0 args in
       coalesce (optChain data (fun d => g ← getProp d "guild" ;
                                         optChain g (fun g => getProp g "id")))
      (coalesce (optChain data (fun d => getProp d "guildId"))
                undefinedC) |};
  {| events := ["messageDeleteBulk"];
     resolver := fun args => let data := arg 0 args in
       coalesce (m ← callMethod "data" data "first" ; optChain m (fun m => getProp m "guildId"))
                undefinedC |};
  {| events := ["channelCreate"; "channelDelete"; "channelUpdate"; "channelPinsUpdate"];
     resolver := fun args => let data := arg 0 args in
       dm ← callMethod "data" data "isDMBased" ;
       if truthy dm then undefinedC else getProp data "guildId" |};
  {| events := ["emojiCreate"; "emojiDelete"; "emojiUpdate"];
     resolver := fun args => let data := arg 0 args in
       coalesce (optChain data (fun d => g ← getProp d "guild" ;
                                         optChain g (fun g => getProp g "id")))
                undefinedC |};
  {| events := ["messageReactionAdd"; "messageReactionRemove"; "messageReactionRemoveEmoji"];
     resolver := fun args => let data := arg 0 args in
       coalesce (optChain data (fun d => m ← getProp d "message" ; getProp m "guildId"))
                undefinedC |};
  {| events := ["messageReactionRemoveAll"];
     resolver := fun args => let data := arg 0 args in
       coalesce (optChain data (fun d => getProp d "guildId")) undefinedC |};
  {| events := ["guildAuditLogEntryCreate"; "guildMembersChunk"; "threadListSync"];
     resolver := fun args => let data := arg 1 args in
       coalesce (getProp data "id") undefinedC |};
  {| events := ["guildAvailable"; "guildCreate"; "guildDelete"; "guildUpdate";
                "guildUnavailable"; "guildIntegrationsUpdate"];
     resolver := fun args => let data := arg 0 args in
       coalesce (getProp data "id") undefinedC |};
  {| events := ["guildBanAdd"; "guildBanRemove"; "guildMemberAdd"; "guildMemberRemove";
                "guildMemberUpdate"; "guildMemberAvailable"; "inviteCreate";
                "inviteDelete"; "roleCreate"; "roleDelete"];
     resolver := fun args => let data := arg 0 args in
       coalesce (g ← getProp data "guild" ; optChain g (fun g => getProp g "id"))
                undefinedC |};
  {| events := ["guildScheduledEventCreate"; "guildScheduledEventDelete";
                "guildScheduledEventUserAdd"; "guildScheduledEventUserRemove"];
     resolver := fun args => let data := arg 0 args in
       coalesce (g ← getProp data "guild" ; optChain g (fun g => getProp g "id"))
      (coalesce (getProp data "guildId") undefinedC) |};
  {| events := ["guildScheduledEventUpdate"];
     resolver := fun args => let data := arg 0 args in
       coalesce (optChain data (fun d => g ← getProp d "guild" ;
                                         optChain g (fun g => getProp g "id")))
      (coalesce (optChain data (fun d => getProp d "guildId"))
                undefinedC) |};
  {| events := ["presenceUpdate"; "roleUpdate"; "stageInstanceUpdate"; "stickerUpdate";
                "threadUpdate"; "voiceStateUpdate"];
     resolver := fun args => let data := arg 0 args in let data2 := arg 1 args in
       coalesce (optChain data (fun d => g ← getProp d "guild" ;
                                         optChain g (fun g => getProp g "id")))
      (coalesce (g ← getProp data2 "guild" ; optChain g (fun g => getProp g "id"))
                undefinedC) |};
  {| events := ["stageInstanceDelete"; "stageInstanceCreate"; "stickerCreate";
                "stickerDelete"; "threadCreate"; "threadDelete"];
     resolver := fun args => let data := arg 0 args in
       coalesce (optChain data (fun d => g ← getProp d "guild" ;
                                         optChain g (fun g => getProp g "id")))
                undefinedC |};
  {| events := ["threadMemberUpdate"];
     resolver := fun args => let data := arg 0 args in let data2 := arg 1 args in
       coalesce (optChain data (fun d => gm ← getProp d "guildMember" ;
                   optChain gm (fun gm => g ← getProp gm "guild" ; getProp g "id")))
      (coalesce (optChain data2 (fun d => gm ← getProp d "guildMember" ;
                   optChain gm (fun gm => g ← getProp gm "guild" ; getProp g "id")))
                undefinedC) |};
  {| events := ["typingStart"; "webhookUpdate"];
     resolver := fun args => let data := arg 0 args in
       coalesce (g ← getProp data "guild" ; optChain g (fun g => getProp g "id"))
                undefinedC |};
  {| events := ["command"];
     resolver := fun args => let data := arg 3 args in
       coalesce (getProp data "guildId") undefinedC |};
  {| events := ["cacheSweep"; "debug"; "error"; "warn"; "invalidated"; "ready";
                "shardReady"; "shardDisconnect"; "shardError"; "shardReconnecting";
                "shardResume"];
     resolver := fun _ => Normal JNull |}
].

(** ** The logger *)

Inductive Level : Type := LDebug | LInfo | LWarn | LError.

Record LogEntry : Type := {
  level : Level;
  parts : list JsVal
}.

#[global] Instance Level_eq_dec : EqDecision Level.
Proof. solve_decision. Defined.

(** [getGuildIdResolversMap]: the table folded into a map keyed by event
    kind, a later entry replacing an earlier one; every overlap is warned
    about twice.  The result pairs the map with the warnings logged. *)
Definition getGuildIdResolversMap : gmap string Resolver * list LogEntry :=
  foldl (fun (acc : gmap string Resolver * list LogEntry) guildIdResolver =>
    foldl (fun (st : gmap string Resolver * list LogEntry) (event : string) =>
      let warnings :=
        if decide (is_Some (st.1 !! event)) then
          st.2 ++
          [ {| level := LWarn;
               parts := [JStr "Overlapping Guild ID Resolvers detected: "; JStr event] |};
            {| level := LWarn;
               parts := [JStr "This seems to be an internal bug. Please report this issue to the developers."] |} ]
        else st.2 in
      (<[event := resolver guildIdResolver]> st.1, warnings))
      acc (events guildIdResolver))
    (∅, []) guildIdResolvers.

(** ** Configuration read by the enablement rule

    [config[guildId]?.extensions] and [systemConfig.extensions] of the
    configuration service; every field is optional. *)

Record GuildExtensionsConfig : Type := {
  disabled_extensions : option (list string);
  enabled : option bool
}.

Record GuildConfig : Type := {
  extensions : option GuildExtensionsConfig
}.

Record SystemExtensionsConfig : Type := {
  default_mode : option string
}.

Record SystemConfig : Type := {
  sys_extensions : option SystemExtensionsConfig
}.

(** ** The world the manager runs in

    [logs] is what the application logger has received, oldest first.
    [ext] is the state the extensions' own code works on.  [calls] is a
    ghost record of the calls the manager makes out of its own code, oldest
    first: [handler(...args)] in a wrapped handler, the two hooks
    [extension.postConstruct()] and [extension.register()], and the two
    calls into the configuration service that end the loading. *)

Inductive Invocation : Type :=
| CallHandler (extensionId eventName : string) (args : list JsVal)
| CallPostConstruct (extensionId : string)
| CallRegister (extensionId : string)
| CallRegisterExtensionConfig (extensionIds : list string)
| CallManualBoot.

Record World (S : Type) : Type := {
  logs : list LogEntry;
  config : gmap string GuildConfig;
  systemConfig : SystemConfig;
  calls : list Invocation;
  ext : S
}.
Arguments logs {S} w.
Arguments config {S} w.
Arguments systemConfig {S} w.
Arguments calls {S} w.
Arguments ext {S} w.

(** How the promise returned by an [async] function settles. *)
Inductive Settled : Type :=
| Fulfilled (v : JsVal)
| Rejected (e : JsVal).

Section Dispatch.
Context {S : Type}.

(** [this.guildIdResolvers], the map kept by the manager. *)
Variable resolvers : gmap string Resolver.

(** An extension's event handler: it may return or throw, and it may
    change the extensions' state. *)
Definition Handler : Type := list JsVal → S → Completion JsVal * S.

Definition log (l : Level) (ps : list JsVal) (w : World S) : World S :=
  {| logs := logs w ++ [ {| level := l; parts := ps |} ];
     config := config w; systemConfig := systemConfig w;
     calls := calls w; ext := ext w |}.

Definition recordCall (c : Invocation) (w : World S) : World S :=
  {| logs := logs w; config := config w; systemConfig := systemConfig w;
     calls := calls w ++ [c]; ext := ext w |}.

Definition setExt (s : S) (w : World S) : World S :=
  {| logs := logs w; config := config w; systemConfig := systemConfig w;
     calls := calls w; ext := s |}.

(** [config[guildId]?.extensions ?? {}] *)
Definition guildExtensions (guildId : JsVal) (w : World S) : GuildExtensionsConfig :=
  default {| disabled_extensions := None; enabled := None |}
          (config w !! toPropertyKey guildId ≫= extensions).

(** [(systemConfig.extensions ?? {}).default_mode] *)
Definition defaultMode (w : World S) : option string :=
  sys_extensions (systemConfig w) ≫= default_mode.

Definition isEnabled (extensionId : string) (guildId : JsVal) (w : World S)
  : bool * World S :=
  let cfg := guildExtensions guildId w in
  let w' := log LDebug [from_option JStr JUndefined (defaultMode w);
                        from_option JBool JUndefined (enabled cfg)] w in
  ((match enabled cfg with
    | None => bool_decide (defaultMode w = Some "enable_all")
    | Some b => b
    end)
   && negb (match disabled_extensions cfg with
            | None => false
            | Some ids => bool_decide (extensionId ∈ ids)
            end),
   w').

(** [this.guildIdResolvers.get(eventName)?.(args)] *)
Definition resolveGuildId (eventName : string) (args : list JsVal) : Completion JsVal :=
  match resolvers !! eventName with
  | None => Normal JUndefined
  | Some r => r args
  end.

(** [wrapHandler]: the wrapped handler, as a function of one event
    occurrence's arguments.  The two outcomes of [bail] in the [catch]
    block both leave the function with [undefined]. *)
Definition wrapHandler (extensionId eventName : string) (handler : Handler)
    (bail : option bool) (args : list JsVal) (w : World S) : Settled * World S :=
  match resolveGuildId eventName args with
  | Throw e => (Rejected e, w)
  | Normal JUndefined =>
      (Fulfilled JUndefined,
       log LError [JStr "Invalid event or failed to fetch guild: "; JStr eventName] w)
  | Normal guildId =>
      let '(disabled, w1) :=
        match guildId with
        | JNull => (false, w)
        | _ => let '(en, w') := isEnabled extensionId guildId w in (negb en, w')
        end in
      if disabled then
        (Fulfilled JUndefined,
         log LDebug [JStr "Extension isn't enabled in this guild: "; guildId] w1)
      else
        let w2 := log LInfo [JStr ("Running: " +:+ eventName +:+ " [" +:+ extensionId +:+ "]")] w1 in
        let w3 := recordCall (CallHandler extensionId eventName args) w2 in
        match handler args (ext w3) with
        | (Normal v, s') => (Fulfilled v, setExt s' w3)
        | (Throw e, s') =>
            let w4 := log LError
              [JStr ("Extension error: the extension '" +:+ extensionId +:+
                     "' seems to cause this exception")] (setExt s' w3) in
            let w5 := log LError [e] w4 in
            match bail with
            | Some true => (Fulfilled JUndefined, w5)
            | _ => (Fulfilled JUndefined, w5)
            end
        end
  end.

End Dispatch.

(** The manager's field is initialised with the folded table. *)
Definition managerResolvers : gmap string Resolver := getGuildIdResolversMap.1.

(** ** Registration of wrapped handlers and delivery of events *)

Section Registry.
Context {S : Type}.
Variable resolvers : gmap string Resolver.

(** An event listener class of an extension, instantiated: the event kind
    it listens to and its [execute] method. *)
Record EventListener : Type := {
  listener_name : string;
  execute : @Handler S
}.

(** The host's listener table: event kind and registered function, in
    registration order. *)
Definition Listeners : Type :=
  list (string * (list JsVal → World S → Settled * World S)).

(** [loadEventClass]: one wrapped handler is registered under the
    listener's event kind; [bail] is not passed. *)
Definition loadEventClass (extensionId : string) (event : EventListener)
    (listeners : Listeners) : Listeners :=
  listeners ++
  [(listener_name event,
    wrapHandler resolvers extensionId (listener_name event) (execute event) None)].

(** Modelled from the spec: the host's event registration point and its
    delivery of an event occurrence ([Client.addEventListener] and the
    emitter behind it are not part of the sources).  The listeners
    subscribed to the event kind are invoked in subscription order, each
    run to completion before the next begins.  [stopOnRejection] chooses
    what the host does when a listener fails: go on with the next
    listener, or abandon the occurrence. *)
Fixpoint emit (stopOnRejection : bool) (listeners : Listeners)
    (eventName : string) (args : list JsVal) (w : World S)
  : list Settled * World S :=
  match listeners with
  | [] => ([], w)
  | (ev, f) :: rest =>
      if decide (ev = eventName) then
        let '(r, w') := f args w in
        match r, stopOnRejection with
        | Rejected _, true => ([r], w')
        | _, _ =>
            let '(rs, w'') := emit stopOnRejection rest eventName args w' in
            (r :: rs, w'')
        end
      else emit stopOnRejection rest eventName args w
  end.

(** Modelled from the spec: successive event occurrences are delivered one
    after the other. *)
Fixpoint deliver (stopOnRejection : bool) (listeners : Listeners)
    (occurrences : list (string * list JsVal)) (w : World S) : World S :=
  match occurrences with
  | [] => w
  | (eventName, args) :: rest =>
      deliver stopOnRejection listeners rest
              (emit stopOnRejection listeners eventName args w).2
  end.

(** ** Activation *)

(** A constructed extension, as far as the manager uses it: its id and
    name and the two hooks, which are the extension's own code. *)
Record Extension : Type := {
  id : string;
  name : string;
  ext_postConstruct : S → Completion unit * S;
  ext_register : S → Completion unit * S
}.

(** [ExtensionManager.postConstruct]: one loop over [this.extensions];
    a hook that throws ends it with a rejection. *)
Fixpoint postConstruct (extensions : list Extension) (w : World S)
  : Settled * World S :=
  match extensions with
  | [] => (Fulfilled JUndefined, w)
  | extension :: rest =>
      let w1 := log LDebug
        [JStr ("Setting up extension: " +:+ id extension +:+ " (" +:+
               name extension +:+ ")")] w in
      let w2 := recordCall (CallPostConstruct (id extension)) w1 in
      match ext_postConstruct extension (ext w2) with
      | (Throw e, s) => (Rejected e, setExt s w2)
      | (Normal _, s) =>
          let w3 := recordCall (CallRegister (id extension)) (setExt s w2) in
          match ext_register extension (ext w3) with
          | (Throw e, s') => (Rejected e, setExt s' w3)
          | (Normal _, s') => postConstruct rest (setExt s' w3)
          end
      end
  end.

End Registry.
Arguments EventListener S : clear implicits.
Arguments Listeners S : clear implicits.
Arguments Extension S : clear implicits.

(** ** The loader *)

(** How a run of start-up code ends: it returns, it throws (the promise of
    the [async] method is rejected), or it ends the process. *)
Inductive ProcessOutcome (A : Type) : Type :=
| Returned (a : A)
| Threw (e : JsVal)
| Exited (code : Z).
Arguments Returned {A} a.
Arguments Threw {A} e.
Arguments Exited {A} code.

(** The status the operating system sees for [process.exit(code)]: the low
    eight bits. *)
Definition exitStatus (code : Z) : Z := Z.land code 255.

(** A parsed manifest, as far as the loader reads it. *)
Record ExtensionMetadata : Type := {
  meta_main : option string;
  meta_id : string
}.

(** The result of [ExtensionMetadataSchema.safeParse]. *)
Inductive SafeParseResult : Type :=
| ParseSuccess (data : ExtensionMetadata)
| ParseFailure (error : JsVal).

(** One entry of the extensions directory, as the loader sees it: its name,
    what [lstat] says, and its manifest: [None] when [extension.json] does
    not exist, otherwise the completion of reading and [JSON.parse]-ing
    it. *)
Record DirEntry : Type := {
  entryName : string;
  isDirectory : bool;
  metadataFile : option (Completion JsVal)
}.

Definition dquote : string := String "034"%char EmptyString.

(** [!this.extensionsPath]: unset, or the empty string. *)
Definition pathSet (extensionsPath : option string) : option string :=
  match extensionsPath with
  | Some EmptyString | None => None
  | Some p => Some p
  end.

Section Loader.
Context {S : Type}.

(** [path.resolve] of the platform.  The manifest of a directory is the
    file [path.join(extensionDirectory, "extension.json")]; an entry
    carries what is found there. *)
Variable path_resolve : string → string → string.

(** The manifest schema is declared outside the sources. *)
Variable safeParse : JsVal → SafeParseResult.

(** [await import(extensionPath)] followed by [new ExtensionClass(...)]:
    code of the extension, which may throw. *)
Variable construct :
  string → string → string → ExtensionMetadata → S → Completion (Extension S) * S.

Definition loadExtensionInitializer (extensionPath extensionName extensionId : string)
    (meta : ExtensionMetadata) (w : World S) : Completion (Extension S) * World S :=
  let w1 := log LDebug [JStr "Attempting to load extension initializer: ";
                        JStr extensionName; JStr extensionId] w in
  let '(r, s) := construct extensionPath extensionName extensionId meta (ext w1) in
  (r, setExt s w1).

(** The [for] loop of [loadExtensions]; [loaded] is [this.extensions]. *)
Fixpoint loadEach (extensionsPath : string) (entries : list DirEntry)
    (loaded : list (Extension S)) (w : World S)
  : ProcessOutcome (list (Extension S)) * World S :=
  match entries with
  | [] => (Returned loaded, w)
  | entry :: rest =>
      let extensionName := entryName entry in
      let extensionDirectory := path_resolve extensionsPath extensionName in
      if negb (isDirectory entry) || bool_decide (extensionName = ".extbuilds") then
        loadEach extensionsPath rest loaded w
      else
        let w1 := log LDebug [JStr "Loading extension from directory: ";
                              JStr extensionDirectory] w in
        match metadataFile entry with
        | None =>
            (Exited (-1),
             log LError [JStr ("Extension " +:+ extensionName +:+ " does not have a " +:+
                               dquote +:+ "extension.json" +:+ dquote +:+ " file!")] w1)
        | Some (Throw e) => (Threw e, w1)
        | Some (Normal json) =>
            match safeParse json with
            | ParseFailure error =>
                let w2 := log LError
                  [JStr ("Error parsing extension metadata for extension " +:+
                         extensionName)] w1 in
                loadEach extensionsPath rest loaded (log LError [error] w2)
            | ParseSuccess data =>
                let main := default "./src/index.js" (meta_main data) in
                let '(r, w2) :=
                  loadExtensionInitializer (path_resolve extensionDirectory main)
                    extensionName (meta_id data) data w1 in
                match r with
                | Throw e => (Threw e, w2)
                | Normal initializer =>
                    loadEach extensionsPath rest (loaded ++ [initializer])
                      (log LInfo [JStr ("Loaded extension: " +:+ meta_id data +:+ " (" +:+
                                        extensionName +:+ ")")] w2)
                end
            end
        end
  end.

(** [initializeConfigService] *)
Definition initializeConfigService (w : World S) : World S :=
  recordCall CallManualBoot w.

(** [onInitializationComplete] *)
Definition onInitializationComplete (loaded : list (Extension S)) (w : World S)
  : World S :=
  initializeConfigService (recordCall (CallRegisterExtensionConfig (id <$> loaded)) w).

(** [loadExtensions]; [dir] is the completion of [fs.readdir] on the
    configured path: the listing, or the exception it throws when the path
    cannot be listed (it is missing, or not a directory). *)
Definition loadExtensions (extensionsPath : option string)
    (dir : Completion (list DirEntry)) (loaded : list (Extension S)) (w : World S)
  : ProcessOutcome (list (Extension S)) * World S :=
  match pathSet extensionsPath with
  | None => (Returned loaded, w)
  | Some p =>
      match dir with
      | Throw e => (Threw e, w)
      | Normal entries =>
          match loadEach p entries loaded w with
          | (Returned loaded', w') =>
              (Returned loaded', onInitializationComplete loaded' w')
          | other => other
          end
      end
  end.

(** [boot]; [existsSync] is the answer of [existsSync(this.extensionsPath)],
    asked only when the path is set. *)
Definition boot (extensionsPath : option string) (existsSync : bool)
    (dir : Completion (list DirEntry)) (loaded : list (Extension S)) (w : World S)
  : ProcessOutcome (list (Extension S)) * World S :=
  match pathSet extensionsPath with
  | Some _ =>
      if existsSync then loadExtensions extensionsPath dir loaded w
      else
        (Returned loaded,
         initializeConfigService (log LDebug [JStr "No extensions found"] w))
  | None =>
      (Returned loaded,
       initializeConfigService (log LDebug [JStr "No extensions found"] w))
  end.

End Loader.

(** ** The metadata client and the install pipeline *)

(** An entry of the remote catalog, as far as the manager reads it;
    [tarballs] holds the [url] of each tarball. *)
Record ExtensionInfo : Type := {
  info_id : string;
  info_name : string;
  info_version : string;
  info_shortName : string;
  tarballs : list string
}.

(** What [request] hands back: [[response, error]]. *)
Record HttpResponse : Type := {
  status : Z;
  data : gmap string ExtensionInfo
}.

Record HttpAnswer : Type := {
  response : option HttpResponse;
  error : option JsVal
}.

(** The pair returned by [fetchExtensionMetadata]. *)
Definition FetchResult : Type := option (gmap string ExtensionInfo) * option JsVal.

(** The promise kept in a cache entry. *)
Inductive PromiseState : Type :=
| Pending
| Resolved (r : FetchResult).

Record CacheEntry : Type := {
  expiresAt : Z;
  promise : PromiseState
}.

(** The machine the pipeline runs on: the logger, the requests sent so far
    (oldest first), the cache, a clock in milliseconds, the chunks written
    to the output stream, and the file system. *)
Record Machine (FS : Type) : Type := {
  m_logs : list LogEntry;
  outbound : list string;
  cacheStore : gmap string CacheEntry;
  now : Z;
  sink : list string;
  files : FS
}.
Arguments m_logs {FS} m.
Arguments outbound {FS} m.
Arguments cacheStore {FS} m.
Arguments now {FS} m.
Arguments sink {FS} m.
Arguments files {FS} m.

(** The file-system operations the pipeline calls: [downloadFile] of the
    download helper (the progress events it reports as loaded and total
    bytes, and the path of the file written), [systemPrefix(path, true)],
    [tar.x], [fs.rename] and [rm].  A [rename] that fails leaves the file
    system as it was. *)
Class FsApi (FS : Type) : Type := {
  downloadFile : string → string → string → FS → (list (N * N) * Completion string) * FS;
  systemPrefix : string → FS → string * FS;
  tar_x : string → string → FS → Completion unit * FS;
  fs_rename : string → string → FS → Completion FS;
  fs_rm : string → bool → FS → Completion unit * FS
}.

(** What [fetchAndInstallExtension] returns. *)
Inductive InstallReturn : Type :=
| RetUndefined
| RetPair (first second : JsVal).

Definition nl : string := String "010"%char EmptyString.

Definition extensionIndexURL : string :=
  "https://raw.githubusercontent.com/onesoft-sudo/sudobot/main/extensions/.extbuilds/index.json".

Definition downloadProgressStreamEOF : string := "%".

Section Install.
Context {FS : Type} `{FsApi FS}.

(** [this.extensionsPath], read from the environment. *)
Variable extensionsPath : option string.

(** The answer of the network to a GET of a URL. *)
Variable request : string → HttpAnswer.

(** [path.join] of the platform. *)
Variable path_join : string → string → string.

(** The text of [Math.floor((loaded / total) * 100)], computed in double
    precision by the source. *)
Variable percentText : N → N → string.

Definition mlog (l : Level) (ps : list JsVal) (m : Machine FS) : Machine FS :=
  {| m_logs := m_logs m ++ [ {| level := l; parts := ps |} ];
     outbound := outbound m; cacheStore := cacheStore m; now := now m;
     sink := sink m; files := files m |}.

Definition setFiles (fs : FS) (m : Machine FS) : Machine FS :=
  {| m_logs := m_logs m; outbound := outbound m; cacheStore := cacheStore m;
     now := now m; sink := sink m; files := fs |}.

Definition setCache (c : gmap string CacheEntry) (m : Machine FS) : Machine FS :=
  {| m_logs := m_logs m; outbound := outbound m; cacheStore := c;
     now := now m; sink := sink m; files := files m |}.

Definition send (url : string) (m : Machine FS) : Machine FS :=
  {| m_logs := m_logs m; outbound := outbound m ++ [url]; cacheStore := cacheStore m;
     now := now m; sink := sink m; files := files m |}.

(** [wait(ms)] *)
Definition wait (ms : Z) (m : Machine FS) : Machine FS :=
  {| m_logs := m_logs m; outbound := outbound m; cacheStore := cacheStore m;
     now := (now m + ms)%Z; sink := sink m; files := files m |}.

(** Time passing between two calls. *)
Definition elapse (ms : Z) (m : Machine FS) : Machine FS := wait ms m.

(** [writeStream]; [stream] tells whether the caller supplied one. *)
Definition writeStream (stream : bool) (chunk : string) (m : Machine FS) : Machine FS :=
  if stream then
    {| m_logs := m_logs m; outbound := outbound m; cacheStore := cacheStore m;
       now := now m; sink := sink m ++ [chunk]; files := files m |}
  else m.

(** The part of [fetchExtensionMetadata] before the request is answered. *)
Definition fetchStart (m : Machine FS) : Machine FS :=
  send extensionIndexURL (mlog LDebug [JStr "Fetching extension list metadata"] m).

(** The part of [fetchExtensionMetadata] after it. *)
Definition fetchFinish (a : HttpAnswer) : FetchResult :=
  match error a, response a with
  | Some e, _ => (None, Some e)
  | None, None => (None, None)
  | None, Some r =>
      if decide (status r = 200%Z) then (Some (data r), None) else (None, None)
  end.

(** Modelled from the spec: the [cache] helper of [utils/cache], which is
    not part of the sources.  One entry per key, alive for [ttl]
    milliseconds from the moment it is stored.  A call that finds a live
    entry shares its promise; a call that finds none starts the fetch and
    stores its promise at once, before the fetch is answered.  The result
    tells whether the fetch was started. *)
Definition cacheCall (key : string) (ttl : Z) (start : Machine FS → Machine FS)
    (m : Machine FS) : bool * Machine FS :=
  match cacheStore m !! key with
  | Some entry =>
      if bool_decide (now m < expiresAt entry)%Z then (false, m)
      else
        let m' := start m in
        (true, setCache (<[key := {| expiresAt := (now m + ttl)%Z; promise := Pending |}]>
                           (cacheStore m')) m')
  | None =>
      let m' := start m in
      (true, setCache (<[key := {| expiresAt := (now m + ttl)%Z; promise := Pending |}]>
                         (cacheStore m')) m')
  end.

(** Modelled from the spec: the fetch behind a pending entry is answered
    and its promise resolves. *)
Definition cacheSettle (key : string) (r : FetchResult) (m : Machine FS) : Machine FS :=
  match cacheStore m !! key with
  | Some {| expiresAt := t; promise := Pending |} =>
      setCache (<[key := {| expiresAt := t; promise := Resolved r |}]> (cacheStore m)) m
  | _ => m
  end.

(** Modelled from the spec: the value a caller awaiting the entry of [key]
    receives once its promise has resolved. *)
Definition cacheAwait (key : string) (m : Machine FS) : option FetchResult :=
  match cacheStore m !! key with
  | Some {| promise := Resolved r |} => Some r
  | _ => None
  end.

(** [getExtensionMetadata] up to its [await]: the call of [cache]. *)
Definition getExtensionMetadataCall (m : Machine FS) : bool * Machine FS :=
  cacheCall "extension-index" 120000 fetchStart m.

(** The network answers the request in flight, if there is one. *)
Definition answerInFlight (m : Machine FS) : Machine FS :=
  cacheSettle "extension-index" (fetchFinish (request extensionIndexURL)) m.

(** [getExtensionMetadata] after its [await].  The catalog is a parsed
    JSON object and [data?.[id]] is read here as the lookup of one of its
    own keys; an [id] that names a member every object inherits
    ([objectPrototypeMembers]) finds that member instead and is not
    followed. *)
Definition getExtensionMetadataResult (id : string) (r : FetchResult)
  : option ExtensionInfo * option JsVal :=
  match r.2 with
  | Some e => (None, Some e)
  | None => (r.1 ≫= (.!! id), None)
  end.

(** [getExtensionMetadata], run to completion without another caller in
    between. *)
Definition getExtensionMetadata (id : string) (m : Machine FS)
  : (option ExtensionInfo * option JsVal) * Machine FS :=
  let m1 := answerInFlight (getExtensionMetadataCall m).2 in
  (getExtensionMetadataResult id (default (None, None) (cacheAwait "extension-index" m1)),
   m1).

Definition label (extension : ExtensionInfo) : string :=
  info_name extension +:+ " (" +:+ info_version extension +:+ ")".

(** [installExtension] *)
Definition installExtension (filePath : string) (extension : ExtensionInfo)
    (stream : bool) (m : Machine FS) : Machine FS :=
  match pathSet extensionsPath with
  | None => m
  | Some p =>
      let m1 := writeStream stream
        ("Preparing to unpack " +:+ label extension +:+ "..." +:+ nl) m in
      let '(extensionTmpDirectory, fs1) :=
        systemPrefix ("tmp/" +:+ info_id extension +:+ "-" +:+ info_version extension)
                     (files m1) in
      let m2 := writeStream stream
        ("Unpacking " +:+ label extension +:+ "..." +:+ nl) (setFiles fs1 m1) in
      match tar_x filePath extensionTmpDirectory (files m2) with
      | (Throw e, fs2) =>
          writeStream stream
            ("E: Unable to unpack extension: " +:+ info_id extension +:+ nl)
            (mlog LError [e] (setFiles fs2 m2))
      | (Normal _, fs2) =>
          let m3 := writeStream stream
            ("Setting up " +:+ label extension +:+ "..." +:+ nl) (setFiles fs2 m2) in
          let extensionDirectory := path_join p (info_shortName extension) in
          match fs_rename
                  (path_join extensionTmpDirectory
                     (info_shortName extension +:+ "-" +:+ info_version extension))
                  extensionDirectory (files m3) with
          | Throw e =>
              writeStream stream
                ("E: Failed to set up extension: " +:+ info_id extension +:+ nl)
                (mlog LError [e] m3)
          | Normal fs3 =>
              let m4 := writeStream stream
                ("Cleaning up caches and temporary files..." +:+ nl) (setFiles fs3 m3) in
              match fs_rm extensionTmpDirectory true (files m4) with
              | (Throw e, fs4) =>
                  writeStream stream
                    ("W: Failed to clean up temporary files for extension: " +:+
                     info_id extension +:+ nl)
                    (mlog LError [e] (setFiles fs4 m4))
              | (Normal _, fs4) => setFiles fs4 m4
              end
          end
      end
  end.

(** The [onDownloadProgress] callback, once per progress event; an event
    without a total is skipped. *)
Fixpoint reportProgress (stream : bool) (events : list (N * N)) (m : Machine FS)
  : Machine FS :=
  match events with
  | [] => m
  | (loaded, total) :: rest =>
      reportProgress stream rest
        (if decide (total = 0%N) then m
         else writeStream stream (percentText loaded total +:+ nl) m)
  end.

(** The [catch] block around the download and the installation. *)
Definition retrieveFailed (id : string) (stream : bool) (e : JsVal) (m : Machine FS)
  : Machine FS :=
  writeStream stream ("E: Failed to retrieve extension: " +:+ id +:+ nl)
    (writeStream stream nl
      (writeStream stream downloadProgressStreamEOF (mlog LError [e] m))).

Definition errorMessage : string :=
  "E: Extensions directory is not set. Please set the EXTENSIONS_DIRECTORY environment variable."
  +:+ nl.

(** [fetchAndInstallExtension] *)
Definition fetchAndInstallExtension (id : string) (stream : bool) (m : Machine FS)
  : InstallReturn * Machine FS :=
  match pathSet extensionsPath with
  | None => (RetPair JNull (JStr errorMessage), writeStream stream errorMessage m)
  | Some _ =>
      let m1 := writeStream stream
        ("Fetching metadata for extension " +:+ id +:+ "..." +:+ nl) m in
      let '((found, metadataError), m2) := getExtensionMetadata id m1 in
      match metadataError, found with
      | Some e, _ =>
          (RetPair JNull e,
           writeStream stream ("E: Failed to fetch metadata of extension: " +:+ id +:+ nl) m2)
      | None, None =>
          (RetPair JNull JNull,
           writeStream stream ("E: Failed to fetch metadata of extension: " +:+ id +:+ nl) m2)
      | None, Some extension =>
          let m3 := writeStream stream
            ("Retrieving " +:+ label extension +:+
             " from the SudoBot Extension Repository (SER)..." +:+ nl) m2 in
          let m4 := writeStream stream nl
            (wait 100 (writeStream stream downloadProgressStreamEOF (wait 100 m3))) in
          match tarballs extension with
          | [] =>
              (RetUndefined,
               retrieveFailed id stream
                 (TypeError "Cannot read properties of undefined (reading 'url')") m4)
          | url :: _ =>
              let '(tmp, fs1) := systemPrefix "tmp" (files m4) in
              let '((events, r), fs2) :=
                downloadFile url tmp
                  (info_id extension +:+ "-" +:+ info_version extension +:+ ".tar.gz") fs1 in
              let m5 := reportProgress stream events (setFiles fs2 m4) in
              match r with
              | Throw e => (RetUndefined, retrieveFailed id stream e m5)
              | Normal filePath =>
                  let m6 := writeStream stream nl
                    (wait 100 (writeStream stream downloadProgressStreamEOF (wait 100 m5))) in
                  let m7 := installExtension filePath extension stream m6 in
                  match fs_rm filePath false (files m7) with
                  | (Throw e, fs3) =>
                      (RetUndefined,
                       writeStream stream
                         ("W: Failed to clean download caches for extension: " +:+ id +:+ nl)
                         (mlog LError [e] (setFiles fs3 m7)))
                  | (Normal _, fs3) => (RetUndefined, setFiles fs3 m7)
                  end
              end
          end
      end
  end.

End Install.

(** ** A file system with the directory rules of rename(2)

    [fs.rename] is the system call: both paths must lead through
    directories and the old path must exist; a directory cannot be moved
    into itself; an existing new path is replaced, unless it is a non-empty
    directory, or a directory where the old path is not (or the reverse).
    Paths are lists of components; a node is a directory ([true]) or a
    file ([false]). *)

Module Posix.

Definition Path : Type := list string.
Definition Fs : Type := list (Path * bool).

(** The components of a textual path. *)
Fixpoint split (s : string) : list string :=
  match s with
  | EmptyString => [EmptyString]
  | String c rest =>
      if decide (c = "/"%char) then EmptyString :: split rest
      else match split rest with
           | [] => [String c EmptyString]
           | hd :: tl => String c hd :: tl
           end
  end.

Definition components (s : string) : Path :=
  filter (λ c, c ≠ EmptyString) (split s).

Fixpoint stripPrefix (p q : Path) : option Path :=
  match p, q with
  | [], _ => Some q
  | x :: p', y :: q' => if decide (x = y) then stripPrefix p' q' else None
  | _ :: _, [] => None
  end.

Fixpoint node (p : Path) (fs : Fs) : option bool :=
  match fs with
  | [] => None
  | (q, d) :: rest => if decide (q = p) then Some d else node p rest
  end.

Definition isDir (p : Path) (fs : Fs) : bool :=
  match p with
  | [] => true
  | _ => bool_decide (node p fs = Some true)
  end.

(** Strictly below [p]. *)
Definition below (p q : Path) : bool :=
  match stripPrefix p q with
  | Some (_ :: _) => true
  | _ => false
  end.

Definition nonEmpty (p : Path) (fs : Fs) : bool :=
  existsb (λ e, below p e.1) fs.

(** Remove [p] and everything below it. *)
Definition prune (p : Path) (fs : Fs) : Fs :=
  filter (λ e, stripPrefix p e.1 = None) fs.

(** Move [old] and everything below it to [new]. *)
Definition move (old new : Path) (fs : Fs) : Fs :=
  (λ e, match stripPrefix old e.1 with
        | Some suffix => (new ++ suffix, e.2)
        | None => e
        end) <$> fs.

Definition errno (code : string) : JsVal := JObj [("code", JStr code)].

(** Walking down to the last component of a path: the error of the first
    component on the way that is missing ([ENOENT]) or is a file
    ([ENOTDIR]), if there is one. *)
Fixpoint blocked (done todo : Path) (fs : Fs) : option string :=
  match todo with
  | [] => None
  | c :: rest =>
      match rest with
      | [] => None
      | _ :: _ =>
          match node (done ++ [c]) fs with
          | Some true => blocked (done ++ [c]) rest fs
          | Some false => Some "ENOTDIR"
          | None => Some "ENOENT"
          end
      end
  end.

Definition rename (oldPath newPath : string) (fs : Fs) : Completion Fs :=
  let old := components oldPath in
  let new := components newPath in
  match blocked [] old fs, node old fs, blocked [] new fs with
  | Some code, _, _ => Throw (errno code)
  | None, None, _ => Throw (errno "ENOENT")
  | None, Some _, Some code => Throw (errno code)
  | None, Some oldIsDir, None =>
      if decide (old = new) then Normal fs
      else if below old new then Throw (errno "EINVAL")
      else
        match node new fs with
        | None => Normal (move old new fs)
        | Some newIsDir =>
            if oldIsDir && negb newIsDir then Throw (errno "ENOTDIR")
            else if negb oldIsDir && newIsDir then Throw (errno "EISDIR")
            else if newIsDir && nonEmpty new fs then Throw (errno "ENOTEMPTY")
            else Normal (move old new (prune new fs))
        end
  end.

(** [rm(path, { force: true, recursive })] *)
Definition rm (path : string) (recursive : bool) (fs : Fs) : Completion unit * Fs :=
  let p := components path in
  match node p fs with
  | None => (Normal (), fs)
  | Some true =>
      if recursive then (Normal (), prune p fs)
      else (Throw (errno "ERR_FS_EISDIR"), fs)
  | Some false => (Normal (), prune p fs)
  end.

(** [mkdir(path, { recursive: true })] *)
Fixpoint mkdirs (done todo : Path) (fs : Fs) : Fs :=
  match todo with
  | [] => fs
  | c :: rest =>
      let p := done ++ [c] in
      mkdirs p rest (match node p fs with
                     | None => fs ++ [(p, true)]
                     | Some _ => fs
                     end)
  end.

(** The bot's directory. *)
Definition prefix : string := "/opt/sudobot".

Definition underPrefix (path : string) (fs : Fs) : string * Fs :=
  let full := prefix +:+ "/" +:+ path in
  (full, mkdirs [] (components full) fs).

(** Unpacking: the archive must be a file and the target a directory;
    [archive] lists what the tarball holds. *)
Definition extract (archive : Fs) (file cwd : string) (fs : Fs) : Completion unit * Fs :=
  if bool_decide (node (components file) fs = Some false) && isDir (components cwd) fs then
    (Normal (), fs ++ ((λ e, (components cwd ++ e.1, e.2)) <$> archive))
  else (Throw (errno "ENOENT"), fs).

(** Downloading: the server reports [progress] and the file is written
    into [dir]. *)
Definition download (progress : list (N * N)) (url dir name : string) (fs : Fs)
  : (list (N * N) * Completion string) * Fs :=
  let filePath := dir +:+ "/" +:+ name in
  ((progress, Normal filePath), prune (components filePath) fs ++ [(components filePath, false)]).

Definition join (a b : string) : string := a +:+ "/" +:+ b.

Definition api (archive : Fs) (progress : list (N * N)) : FsApi Fs := {|
  downloadFile := download progress;
  systemPrefix := underPrefix;
  tar_x := extract archive;
  fs_rename := rename;
  fs_rm := rm
|}.

End Posix.

(** ** Notions used to state the properties *)

Section Notions.
Context {S : Type}.
Variable resolvers : gmap string Resolver.

(** The enablement rule in the words of the specification: the
    per-community flag when it is set, otherwise whether the default mode
    is [enable_all]; and the id is not among the disabled ones. *)
Definition enablement_rule (enabled : option bool) (defaultMode : option string)
    (disabledExtensionIds : list string) (id : string) : Prop :=
  match enabled with
  | Some b => b = true
  | None => defaultMode = Some "enable_all"
  end ∧ id ∉ disabledExtensionIds.

(** The first two steps of a wrapped handler let the occurrence through:
    the guild id resolves to [null], or to a value for which the
    extension is enabled. *)
Definition admits (extensionId eventName : string) (args : list JsVal)
    (w : World S) : bool :=
  match resolveGuildId resolvers eventName args with
  | Throw _ | Normal JUndefined => false
  | Normal JNull => true
  | Normal guildId => (isEnabled extensionId guildId w).1
  end.

(** The world in which the handler is entered when the occurrence is let
    through. *)
Definition entered (extensionId eventName : string) (args : list JsVal)
    (w : World S) : World S :=
  let w1 := match resolveGuildId resolvers eventName args with
            | Normal JNull => w
            | Normal guildId => (isEnabled extensionId guildId w).2
            | Throw _ => w
            end in
  recordCall (CallHandler extensionId eventName args)
    (log LInfo [JStr ("Running: " +:+ eventName +:+ " [" +:+ extensionId +:+ "]")] w1).

(** The resolver of the event kind does not throw on these arguments. *)
Definition resolvable (occurrence : string * list JsVal) : Prop :=
  ∃ guildId, resolveGuildId resolvers occurrence.1 occurrence.2 = Normal guildId.

(** One wrapped handler, called once per occurrence. *)
Fixpoint recur (wrapped : list JsVal → World S → Settled * World S)
    (occurrences : list (list JsVal)) (w : World S) : list Settled * World S :=
  match occurrences with
  | [] => ([], w)
  | args :: rest =>
      let '(r, w') := wrapped args w in
      let '(rs, w'') := recur wrapped rest w' in
      (r :: rs, w'')
  end.

(** A subscription of an extension to an event kind. *)
Record Subscription : Type := {
  sub_extension : string;
  sub_event : string;
  sub_handler : @Handler S;
  sub_bail : option bool
}.

Definition subscribe (subs : list Subscription) : Listeners S :=
  (λ s, (sub_event s,
         wrapHandler resolvers (sub_extension s) (sub_event s) (sub_handler s) (sub_bail s)))
  <$> subs.

(** The handler calls an occurrence leads to when every subscribed handler
    that is let through is reached. *)
Definition reached (subs : list Subscription) (w : World S)
    (occurrence : string * list JsVal) : list Invocation :=
  flat_map (λ s,
    if bool_decide (sub_event s = occurrence.1) &&
       admits (sub_extension s) occurrence.1 occurrence.2 w
    then [CallHandler (sub_extension s) occurrence.1 occurrence.2]
    else []) subs.

(** The two lines a disabled extension leaves in the log. *)
Definition disabledLines (C : JsVal) (w : World S) : list LogEntry :=
  [ {| level := LDebug;
       parts := [from_option JStr JUndefined (defaultMode w);
                 from_option JBool JUndefined (enabled (guildExtensions C w))] |};
    {| level := LDebug;
       parts := [JStr "Extension isn't enabled in this guild: "; C] |} ].

(** The registration of every extension comes after the post-construction
    of every extension. *)
Definition two_phase (trace : list Invocation) : Prop :=
  ∀ i j a b, trace !! i = Some (CallRegister a) →
             trace !! j = Some (CallPostConstruct b) → j < i.

(** No entry for the key, or one that has expired. *)
Definition stale {FS} (key : string) (m : Machine FS) : Prop :=
  match cacheStore m !! key with
  | Some entry => (expiresAt entry ≤ now m)%Z
  | None => True
  end.

(** A catalog that answers every request with status 200 and its index. *)
Definition healthy (catalog : gmap string ExtensionInfo) (request : string → HttpAnswer)
  : Prop :=
  ∀ url, request url = {| response := Some {| status := 200; data := catalog |};
                          error := None |}.

(** The hook calls of an activation that goes through. *)
Definition interleaved (extensions : list (Extension S)) : list Invocation :=
  flat_map (λ e, [CallPostConstruct (id e); CallRegister (id e)]) extensions.

End Notions.

(** ** Scenarios

    Concrete inputs on which the properties below are exercised. *)

Module Scenario.

(** A message event (or any event whose first argument carries [guild]
    and [guildId]) in a guild. *)
Definition messageIn (guild : string) : list JsVal :=
  [JObj [("guild", JObj [("id", JStr guild)]); ("guildId", JStr guild)]].

(** Guild [guild-1] has extensions switched on and [welcomer] disabled;
    guild [guild-2] has them switched off; the default mode is
    [enable_all]. *)
Definition world : World nat := {|
  logs := [];
  config :=
    {[ "guild-1" := {| extensions := Some {| disabled_extensions := Some ["welcomer"];
                                             enabled := Some true |} |};
       "guild-2" := {| extensions := Some {| disabled_extensions := None;
                                             enabled := Some false |} |} ]};
  systemConfig := {| sys_extensions := Some {| default_mode := Some "enable_all" |} |};
  calls := [];
  ext := 0
|}.

(** A handler that counts its calls and returns, and one that counts and
    throws. *)
Definition counting : @Handler nat := λ _ n, (Normal JUndefined, S n).
Definition throwing : @Handler nat := λ _ n, (Throw (JStr "boom"), S n).

Definition subscriptions : list (@Subscription nat) :=
  [ {| sub_extension := "greeter"; sub_event := "messageCreate";
       sub_handler := throwing; sub_bail := None |};
    {| sub_extension := "logger"; sub_event := "messageCreate";
       sub_handler := counting; sub_bail := Some true |} ].

(** Two extensions whose hooks write their name into the shared state. *)
Definition A : Extension (list string) :=
  {| id := "a"; name := "A";
     ext_postConstruct := λ l, (Normal (), l ++ ["a.postConstruct"]);
     ext_register := λ l, (Normal (), l ++ ["a.register"]) |}.

Definition B : Extension (list string) :=
  {| id := "b"; name := "B";
     ext_postConstruct := λ l, (Normal (), l ++ ["b.postConstruct"]);
     ext_register := λ l, (Normal (), l ++ ["b.register"]) |}.

Definition fresh : World (list string) := {|
  logs := []; config := ∅; systemConfig := {| sys_extensions := None |};
  calls := []; ext := []
|}.

(** The loader's collaborators: a schema that asks for a string [id] and
    takes a string [main]; extensions whose hooks write into the state. *)
Definition safeParse (json : JsVal) : SafeParseResult :=
  match json with
  | JObj props =>
      match lookupProp "id" props with
      | JStr i =>
          ParseSuccess {| meta_main := match lookupProp "main" props with
                                       | JStr m => Some m
                                       | _ => None
                                       end;
                          meta_id := i |}
      | _ => ParseFailure (JStr "id: Required")
      end
  | _ => ParseFailure (JStr "Expected object")
  end.

Definition construct (extensionPath extensionName extensionId : string)
    (meta : ExtensionMetadata) (l : list string)
  : Completion (Extension (list string)) * list string :=
  (Normal {| id := extensionId; name := extensionName;
             ext_postConstruct := λ l, (Normal (), l ++ [extensionId +:+ ".postConstruct"]);
             ext_register := λ l, (Normal (), l ++ [extensionId +:+ ".register"]) |},
   l ++ ["import " +:+ extensionPath]).

(** [path.resolve] on the paths of the scenarios: an absolute second path
    stands alone, a leading [./] is dropped. *)
Definition resolve (a b : string) : string :=
  if String.prefix "/" b then b
  else if String.prefix "./" b then a +:+ "/" +:+ String.substring 2 (String.length b - 2) b
  else a +:+ "/" +:+ b.

Definition welcomerDir : DirEntry :=
  {| entryName := "welcomer"; isDirectory := true;
     metadataFile := Some (Normal (JObj [("id", JStr "welcomer")])) |}.
Definition readme : DirEntry :=
  {| entryName := "README.md"; isDirectory := false; metadataFile := None |}.
Definition extbuilds : DirEntry :=
  {| entryName := ".extbuilds"; isDirectory := true; metadataFile := None |}.
Definition brokenDir : DirEntry :=
  {| entryName := "broken"; isDirectory := true;
     metadataFile := Some (Normal (JObj [("main", JStr "./index.js")])) |}.
Definition orphanDir : DirEntry :=
  {| entryName := "orphan"; isDirectory := true; metadataFile := None |}.
Definition pollsDir : DirEntry :=
  {| entryName := "polls"; isDirectory := true;
     metadataFile := Some (Normal (JObj [("id", JStr "polls"); ("main", JStr "./main.js")])) |}.

(** The install pipeline's surroundings: a catalog with [welcomer], its
    tarball already downloaded, and what the tarball holds. *)
Definition welcomer : ExtensionInfo :=
  {| info_id := "welcomer"; info_name := "Welcomer"; info_version := "1.0.0";
     info_shortName := "welcomer";
     tarballs := ["https://extensions.example/welcomer-1.0.0.tar.gz"] |}.

Definition catalog : gmap string ExtensionInfo := {[ "welcomer" := welcomer ]}.

Definition request (url : string) : HttpAnswer :=
  {| response := Some {| status := 200; data := catalog |}; error := None |}.

Definition archive : Posix.Fs :=
  [(["welcomer-1.0.0"], true); (["welcomer-1.0.0"; "extension.json"], false)].

Definition tarball : string := "/opt/sudobot/tmp/welcomer-1.0.0.tar.gz".

Definition base : Posix.Fs :=
  [(["srv"], true); (["srv"; "extensions"], true);
   (["opt"], true); (["opt"; "sudobot"], true); (["opt"; "sudobot"; "tmp"], true);
   (["opt"; "sudobot"; "tmp"; "welcomer-1.0.0.tar.gz"], false)].

(** The destination exists and is empty. *)
Definition emptyDestination : Posix.Fs :=
  base ++ [(["srv"; "extensions"; "welcomer"], true)].

(** The destination exists and holds an installed extension. *)
Definition installed : Posix.Fs :=
  base ++ [(["srv"; "extensions"; "welcomer"], true);
           (["srv"; "extensions"; "welcomer"; "extension.json"], false);
           (["srv"; "extensions"; "welcomer"; "settings.json"], false)].

Definition machine (fs : Posix.Fs) : Machine Posix.Fs :=
  {| m_logs := []; outbound := []; cacheStore := ∅; now := 0; sink := []; files := fs |}.

Definition install (fs : Posix.Fs) : Machine Posix.Fs :=
  @installExtension _ (Posix.api archive []) (Some "/srv/extensions") Posix.join
    tarball welcomer true (machine fs).

End Scenario.

(** ** The fold of the table, for any table *)

(** The body of the inner loop of [getGuildIdResolversMap]. *)
Definition registerEvent (r : Resolver) (st : gmap string Resolver * list LogEntry)
    (event : string) : gmap string Resolver * list LogEntry :=
  let warnings :=
    if decide (is_Some (st.1 !! event)) then
      st.2 ++
      [ {| level := LWarn;
           parts := [JStr "Overlapping Guild ID Resolvers detected: "; JStr event] |};
        {| level := LWarn;
           parts := [JStr "This seems to be an internal bug. Please report this issue to the developers."] |} ]
    else st.2 in
  (<[event := r]> st.1, warnings).

(** The two loops of [getGuildIdResolversMap], run over [table]. *)
Definition foldResolvers (table : list GuildIdResolverEntry)
  : gmap string Resolver * list LogEntry :=
  foldl (λ acc entry, foldl (registerEvent (resolver entry)) acc (events entry))
        (∅, []) table.

(** The event kinds of a table with their resolvers, in the order the loops
    visit them. *)
Definition registrations (table : list GuildIdResolverEntry)
  : list (string * Resolver) :=
  flat_map (λ entry, (λ event, (event, resolver entry)) <$> events entry) table.

(** The connection-lifecycle event kinds, whose resolver is [() => null]. *)
Definition lifecycleEvents : list string :=
  ["cacheSweep"; "debug"; "error"; "warn"; "invalidated"; "ready"; "shardReady";
   "shardDisconnect"; "shardError"; "shardReconnecting"; "shardResume"].

(** The event kinds whose resolver does not end in [?? undefined]. *)
Definition uncoalescedEvents : list string :=
  ["applicationCommandPermissionsUpdate";
   "channelCreate"; "channelDelete"; "channelUpdate"; "channelPinsUpdate"]
  ++ lifecycleEvents.

(** The event kinds whose resolver guards every property read with [?.]
    (or reads nothing). *)
Definition guardedEvents : list string :=
  ["messageCreate"; "normalMessageCreate"; "normalMessageDelete"; "normalMessageUpdate";
   "messageDelete"; "messageUpdate"; "interactionCreate";
   "emojiCreate"; "emojiDelete"; "emojiUpdate";
   "messageReactionRemoveAll"; "guildScheduledEventUpdate";
   "stageInstanceDelete"; "stageInstanceCreate"; "stickerCreate"; "stickerDelete";
   "threadCreate"; "threadDelete"]
  ++ lifecycleEvents.

(** The event kinds resolved by [data?.guild?.id ?? data?.guildId ?? undefined]. *)
Definition messageEvents : list string :=
  ["messageCreate"; "normalMessageCreate"; "normalMessageDelete"; "normalMessageUpdate";
   "messageDelete"; "messageUpdate"; "interactionCreate"; "guildScheduledEventUpdate"].

(** The resolver of the message event kinds, as the table has it. *)
Definition messageResolver : Resolver := fun args => let data := arg 0 args in
  coalesce (optChain data (fun d => g ← getProp d "guild" ;
                                    optChain g (fun g => getProp g "id")))
 (coalesce (optChain data (fun d => getProp d "guildId"))
           undefinedC).

(** An evaluation that completes without throwing. *)
Definition safe (c : Completion JsVal) : Prop := ∃ v, c = Normal v.

(** ** Notions for the loader and the pipeline *)

(** An entry the loop of [loadExtensions] does not pass over. *)
Definition isCandidate (entry : DirEntry) : bool :=
  isDirectory entry && negb (bool_decide (entryName entry = ".extbuilds")).

(** A candidate whose manifest is read, parsed and accepted by the schema. *)
Definition accepted (safeParse : JsVal → SafeParseResult) (entry : DirEntry) : bool :=
  isCandidate entry &&
  match metadataFile entry with
  | Some (Normal json) =>
      match safeParse json with
      | ParseSuccess _ => true
      | ParseFailure _ => false
      end
  | _ => false
  end.

(** The property names every plain object answers to without holding them
    itself: the members of [Object.prototype]. *)
Definition objectPrototypeMembers : list string :=
  ["constructor"; "hasOwnProperty"; "isPrototypeOf"; "propertyIsEnumerable";
   "toLocaleString"; "toString"; "valueOf"; "__proto__";
   "__defineGetter__"; "__defineSetter__"; "__lookupGetter__"; "__lookupSetter__"].

(** The lines the progress callback writes for a series of progress events. *)
Definition progressLines (percentText : N → N → string) (events : list (N * N))
  : list string :=
  (λ e, percentText e.1 e.2 +:+ nl) <$> filter (λ e, e.2 ≠ 0%N) events.

(** A directory whose manifest is not JSON, and a constructor that throws
    for one extension. *)
Definition garbledDir : DirEntry :=
  {| entryName := "garbled"; isDirectory := true;
     metadataFile := Some (Throw (JObj [("name", JStr "SyntaxError")])) |}.

Definition pickyConstruct (extensionPath extensionName extensionId : string)
    (meta : ExtensionMetadata) (l : list string)
  : Completion (Extension (list string)) * list string :=
  if decide (extensionId = "polls") then
    (Throw (JStr "polls needs a database"), l ++ ["import " +:+ extensionPath])
  else Scenario.construct extensionPath extensionName extensionId meta l.

(** Percentages for the scenarios. *)
Definition percentOf (loaded total : N) : string :=
  if decide (loaded = total) then "100" else "50".

(** A file system whose operations fail as its switches say and otherwise
    follow the rules above. *)
Definition flaky (unpacks cleans : bool) : FsApi Posix.Fs := {|
  downloadFile := Posix.download [(5, 10); (7, 0); (10, 10)]%N;
  systemPrefix := Posix.underPrefix;
  tar_x := λ file cwd fs,
    if unpacks then Posix.extract Scenario.archive file cwd fs
    else (Throw (Posix.errno "TAR_BAD_ARCHIVE"), fs);
  fs_rename := Posix.rename;
  fs_rm := λ path recursive fs,
    if cleans then Posix.rm path recursive fs else (Throw (Posix.errno "EACCES"), fs)
|}.

(** ** Loading the event listeners of an extension *)

(** [file.endsWith(suffix)] *)
Definition endsWith (file suffix : string) : bool :=
  bool_decide (String.list_ascii_of_string suffix `suffix_of`
               String.list_ascii_of_string file).

(** The files [loadEvents] imports: TypeScript and JavaScript sources, but
    not TypeScript declaration files. *)
Definition isEventFile (file : string) : bool :=
  negb ((negb (endsWith file ".ts") && negb (endsWith file ".js")) ||
        endsWith file ".d.ts").

Section Events.
Context {S : Type}.
Variable resolvers : gmap string Resolver.

(** A directory of an extension as [loadEvents] walks it.  A file carries
    what importing it and instantiating its default export does: code of the
    extension, which may throw. *)
#[warnings="-register-all"]
Inductive EventTree : Type :=
| EventFile (file : string) (module : S → Completion (EventListener S) * S)
| EventDir (file : string) (children : list EventTree).

(** [loadEvent] followed by [loadEventClass], for one file. *)
Definition loadEvent (extensionId : string)
    (module : S → Completion (EventListener S) * S)
    (st : Listeners S * World S) : Completion unit * (Listeners S * World S) :=
  match module (ext st.2) with
  | (Throw e, s) => (Throw e, (st.1, setExt s st.2))
  | (Normal event, s) =>
      (Normal (), (loadEventClass resolvers extensionId event st.1, setExt s st.2))
  end.

(** One entry of the listing in the loop of [loadEvents]: a directory is
    walked in turn, a file is imported when its name qualifies. *)
Fixpoint loadEntry (extensionId : string) (entry : EventTree)
    (st : Listeners S * World S) : Completion unit * (Listeners S * World S) :=
  match entry with
  | EventDir _ children =>
      (fix each (files : list EventTree) (st : Listeners S * World S) :=
         match files with
         | [] => (Normal (), st)
         | file :: rest =>
             match loadEntry extensionId file st with
             | (Normal _, st') => each rest st'
             | (Throw e, st') => (Throw e, st')
             end
         end) children st
  | EventFile file module =>
      if isEventFile file then loadEvent extensionId module st else (Normal (), st)
  end.

(** [loadEvents], for the listing of a directory. *)
Fixpoint loadEvents (extensionId : string) (files : list EventTree)
    (st : Listeners S * World S) : Completion unit * (Listeners S * World S) :=
  match files with
  | [] => (Normal (), st)
  | file :: rest =>
      match loadEntry extensionId file st with
      | (Normal _, st') => loadEvents extensionId rest st'
      | (Throw e, st') => (Throw e, st')
      end
  end.

(** The number of files of a listing, at any depth, that are imported. *)
Fixpoint eventFiles (entry : EventTree) : nat :=
  match entry with
  | EventDir _ children =>
      (fix total (files : list EventTree) : nat :=
         match files with
         | [] => 0
         | file :: rest => eventFiles file + total rest
         end) children
  | EventFile file _ => if isEventFile file then 1 else 0
  end.

Definition eventFilesIn (files : list EventTree) : nat :=
  foldr (λ file n, eventFiles file + n) 0 files.

End Events.
Arguments EventTree S : clear implicits.
Arguments EventFile {S} file module.
Arguments EventDir {S} file children.

(** An extension's [events] directory. *)
Definition eventsDir : list (EventTree nat) :=
  [ EventFile "MessageCreateListener.ts"
      (λ n, (Normal {| listener_name := "messageCreate"; execute := Scenario.counting |}, n));
    EventFile "types.d.ts"
      (λ n, (Throw (JStr "declaration files hold no code"), n));
    EventFile "README.md" (λ n, (Throw (JStr "not a module"), n));
    EventDir "guild"
      [ EventFile "GuildCreateListener.js"
          (λ n, (Normal {| listener_name := "guildCreate"; execute := Scenario.throwing |}, n));
        EventDir "empty" [] ] ].

(** An extension whose registration hook throws. *)
Definition faulty : Extension (list string) :=
  {| id := "faulty"; name := "Faulty";
     ext_postConstruct := λ l, (Normal (), l ++ ["faulty.postConstruct"]);
     ext_register := λ l, (Throw (JStr "cannot register commands"), l ++ ["faulty.register"]) |}.

(** ** The warn command *)

(** What [execute] reads of its context: whether the invoker is a guild
    member, whether the command came as a chat-input interaction, and the
    [notify] option of that interaction ([null] when it was not given). *)
Record WarnContext : Type := {
  ctx_member : bool;
  ctx_isChatInput : bool;
  ctx_notify : option bool
}.

(** What [execute] does to the outside, in order. *)
Inductive WarnAction : Type :=
| SendError (message : string)
| CreateWarning (reason : option string) (notify : bool)
| SendReply (overviewEmbed : JsVal).

(** [WarnCommand.execute].  [canModerate] is what the permission manager
    answers for the invoker and the target; [createWarning] is what the
    infraction manager returns, the overview embed and the status. *)
Definition warnExecute (context : WarnContext) (reason : option string)
    (canModerate : Completion bool)
    (createWarning : option string → bool → Completion (JsVal * string))
  : Completion unit * list WarnAction :=
  let denied := [SendError "You don't have permission to warn this member!"] in
  if negb (ctx_member context) then (Normal (), denied)
  else
    match canModerate with
    | Throw e => (Throw e, [])
    | Normal false => (Normal (), denied)
    | Normal true =>
        let notify :=
          negb (ctx_isChatInput context) ||
          negb (bool_decide (ctx_notify context = Some false)) in
        match createWarning reason notify with
        | Throw e => (Throw e, [CreateWarning reason notify])
        | Normal (overviewEmbed, status) =>
            if decide (status = "failed") then
              (Normal (), [CreateWarning reason notify; SendError "Failed to warn member."])
            else
              (Normal (), [CreateWarning reason notify; SendReply overviewEmbed])
        end
    end.

Definition isResponse (a : WarnAction) : bool :=
  match a with
  | CreateWarning _ _ => false
  | _ => true
  end.


(** * Properties *)

(** The table is a fixed map; proofs look entries up by evaluation
    ([vm_compute]) and otherwise leave it folded. *)
Opaque getGuildIdResolversMap managerResolvers.

(** No event kind is claimed by two entries of the table: building the map
    logs no warning. *)
Lemma table_has_no_overlap : getGuildIdResolversMap.2 = [].
Proof. vm_compute. reflexivity. Qed.

Section DispatchFacts.
Context {S : Type}.
Variable resolvers : gmap string Resolver.
Implicit Types (w : World S) (handler : @Handler S).

Lemma isEnabled_world extensionId guildId w :
  (isEnabled extensionId guildId w).2 =
  log LDebug [from_option JStr JUndefined (defaultMode w);
              from_option JBool JUndefined (enabled (guildExtensions guildId w))] w.
Proof. reflexivity. Qed.

(** The decision reads the configuration only. *)
Lemma isEnabled_congr extensionId guildId w w' :
  config w = config w' → systemConfig w = systemConfig w' →
  (isEnabled extensionId guildId w).1 = (isEnabled extensionId guildId w').1.
Proof.
  intros Hc Hs. unfold isEnabled, guildExtensions, defaultMode. simpl.
  by rewrite Hc, Hs.
Qed.

Lemma admits_congr extensionId eventName args w w' :
  config w = config w' → systemConfig w = systemConfig w' →
  admits resolvers extensionId eventName args w = admits resolvers extensionId eventName args w'.
Proof.
  intros Hc Hs. unfold admits.
  destruct (resolveGuildId resolvers eventName args) as [g|e]; [|done].
  destruct g; try done; by apply isEnabled_congr.
Qed.

(** A resolver that throws makes the wrapped handler reject: the call is
    made before the [try] block is entered. *)
Lemma wrapHandler_resolver_throws extensionId eventName handler bail args w e :
  resolveGuildId resolvers eventName args = Throw e →
  wrapHandler resolvers extensionId eventName handler bail args w = (Rejected e, w).
Proof. intros H. unfold wrapHandler. by rewrite H. Qed.

Lemma wrapHandler_undefined extensionId eventName handler bail args w :
  resolveGuildId resolvers eventName args = Normal JUndefined →
  wrapHandler resolvers extensionId eventName handler bail args w =
  (Fulfilled JUndefined,
   log LError [JStr "Invalid event or failed to fetch guild: "; JStr eventName] w).
Proof. intros H. unfold wrapHandler. by rewrite H. Qed.

(** What a wrapped handler does when the extension is disabled for the
    resolved guild. *)
Lemma wrapHandler_disabled extensionId eventName handler bail args w C :
  resolveGuildId resolvers eventName args = Normal C → isNullish C = false →
  (isEnabled extensionId C w).1 = false →
  wrapHandler resolvers extensionId eventName handler bail args w =
  (Fulfilled JUndefined,
   log LDebug [JStr "Extension isn't enabled in this guild: "; C]
       (isEnabled extensionId C w).2).
Proof.
  intros Hr Hn Hd. unfold wrapHandler. rewrite Hr.
  destruct (isEnabled extensionId C w) as [en w1] eqn:E. simpl in Hd. subst en.
  destruct C; try discriminate Hn; reflexivity.
Qed.

Lemma wrapHandler_admitted extensionId eventName handler bail args w :
  admits resolvers extensionId eventName args w = true →
  wrapHandler resolvers extensionId eventName handler bail args w =
  let w3 := entered resolvers extensionId eventName args w in
  match handler args (ext w3) with
  | (Normal v, s') => (Fulfilled v, setExt s' w3)
  | (Throw e, s') =>
      (Fulfilled JUndefined,
       log LError [e]
         (log LError [JStr ("Extension error: the extension '" +:+ extensionId +:+
                            "' seems to cause this exception")] (setExt s' w3)))
  end.
Proof.
  unfold admits, wrapHandler, entered. intros Ha.
  destruct (resolveGuildId resolvers eventName args) as [g|e]; [|done].
  destruct g; try done;
    try (destruct (isEnabled extensionId _ w) as [en w1] eqn:E; simpl in Ha; subst en;
         simpl);
    destruct (handler args _) as [[v|e] s']; try reflexivity; by destruct bail as [[]|].
Qed.

End DispatchFacts.

Section DeliveryFacts.
Context {S : Type}.
Variable resolvers : gmap string Resolver.
Implicit Types (w : World S) (handler : @Handler S).

(** A wrapped handler whose resolver does not throw fulfils, leaves the
    configuration alone, and calls the handler exactly when the occurrence
    is let through, whatever the handler does. *)
Lemma wrapHandler_calls extensionId eventName handler bail args w :
  resolvable resolvers (eventName, args) →
  ∃ v w', wrapHandler resolvers extensionId eventName handler bail args w = (Fulfilled v, w') ∧
    config w' = config w ∧ systemConfig w' = systemConfig w ∧
    calls w' = calls w ++
      (if admits resolvers extensionId eventName args w
       then [CallHandler extensionId eventName args] else []).
Proof.
  intros [g Hg]. simpl in Hg.
  destruct (admits resolvers extensionId eventName args w) eqn:Ha.
  - rewrite wrapHandler_admitted by done. cbv zeta.
    destruct (handler args _) as [[v|e] s']; eexists _, _; split; try reflexivity;
      unfold entered; rewrite Hg; destruct g; simpl; done.
  - unfold admits in Ha. rewrite Hg in Ha.
    assert (g = JUndefined ∨ (isNullish g = false ∧ (isEnabled extensionId g w).1 = false))
      as [->|[Hn Hd]] by (destruct g; auto; discriminate Ha).
    + rewrite wrapHandler_undefined by done. eexists _, _. split; [done|].
      simpl. by rewrite app_nil_r.
    + rewrite (wrapHandler_disabled _ _ _ _ _ _ _ g) by done.
      eexists _, _. split; [done|]. simpl. by rewrite app_nil_r.
Qed.

Lemma reached_congr subs w w' occurrence :
  config w = config w' → systemConfig w = systemConfig w' →
  reached resolvers subs w occurrence = reached resolvers subs w' occurrence.
Proof.
  intros Hc Hs. unfold reached. induction subs as [|s subs IH]; [done|].
  simpl. by rewrite IH, (admits_congr _ _ _ _ w w').
Qed.

(** One occurrence reaches every subscribed handler that is let through,
    in subscription order, whatever the handlers do and whatever the host
    does on a rejection. *)
Lemma emit_calls stop subs eventName args w :
  resolvable resolvers (eventName, args) →
  let w' := (emit stop (subscribe resolvers subs) eventName args w).2 in
  config w' = config w ∧ systemConfig w' = systemConfig w ∧
  calls w' = calls w ++ reached resolvers subs w (eventName, args).
Proof.
  intros Hr. revert w. induction subs as [|s subs IH]; intros w; simpl.
  { by rewrite app_nil_r. }
  destruct (decide (sub_event s = eventName)) as [He|He].
  - destruct (wrapHandler_calls (sub_extension s) (sub_event s) (sub_handler s)
                (sub_bail s) args w) as (v & w1 & Hw & Hc & Hs & Hcalls).
    { by rewrite He. }
    rewrite Hw. specialize (IH w1). simpl in IH.
    destruct (emit stop (subscribe resolvers subs) eventName args w1) as [rs w2].
    simpl in *. destruct IH as (Hc2 & Hs2 & Hcalls2).
    rewrite bool_decide_true by done. simpl.
    rewrite Hc2, Hs2, Hcalls2, Hcalls, Hc, Hs. split; [done|]. split; [done|].
    rewrite (reached_congr subs w1 w) by done.
    rewrite <- He at 2 3. rewrite <- He.
    destruct (admits resolvers _ _ _ w); simpl; by rewrite <- app_assoc.
  - rewrite bool_decide_false by done. simpl. apply IH.
Qed.

Lemma deliver_calls stop subs occurrences w :
  Forall (resolvable resolvers) occurrences →
  calls (deliver stop (subscribe resolvers subs) occurrences w) =
  calls w ++ flat_map (reached resolvers subs w) occurrences.
Proof.
  intros Hall. revert w. induction Hall as [|[ev args] occs Hr _ IH]; intros w; simpl.
  { by rewrite app_nil_r. }
  destruct (emit_calls stop subs ev args w Hr) as (Hc & Hs & Hcalls).
  rewrite IH, Hcalls, <- app_assoc. f_equal. f_equal.
  clear -Hc Hs. induction occs as [|o occs IHo]; [done|].
  simpl. by rewrite IHo, (reached_congr subs _ w).
Qed.

End DeliveryFacts.

(** ** The enablement rule *)

Lemma isEnabled_true_iff {S} (extensionId : string) (guildId : JsVal) (w : World S) :
  (isEnabled extensionId guildId w).1 = true ↔
  enablement_rule (enabled (guildExtensions guildId w)) (defaultMode w)
    (default [] (disabled_extensions (guildExtensions guildId w))) extensionId.
Proof.
  unfold isEnabled, enablement_rule. simpl.
  destruct (enabled (guildExtensions guildId w)) as [[]|],
           (disabled_extensions (guildExtensions guildId w)) as [ids|]; simpl;
    repeat case_bool_decide; simpl; split; try done;
    try (intros [? ?]; done); try (intros _; split; [done|set_solver]).
Qed.

(** C3.  For every extension id, guild id (a string), per-guild
    configuration and system configuration: [isEnabled] returns true exactly
    when the [enabled] flag found under [config[guildId].extensions], if it
    is set, is true -- and otherwise the [default_mode] found under
    [systemConfig.extensions] is ["enable_all"] -- and the extension id is
    not among the [disabled_extensions] found under
    [config[guildId].extensions].  A guild without an entry, an entry
    without [extensions] and a system configuration without [extensions]
    count as nothing set.  A flag that is set decides alone: the default
    mode is then not consulted. *)
Theorem isEnabled_follows_rule {S} (extensionId guildId : string) (w : World S) :
  let cfg :=
    match config w !! guildId with
    | Some {| extensions := Some c |} => c
    | _ => {| disabled_extensions := None; enabled := None |}
    end in
  let mode :=
    match sys_extensions (systemConfig w) with
    | Some {| default_mode := mode |} => mode
    | None => None
    end in
  let disabledIds := default [] (disabled_extensions cfg) in
  let listed := bool_decide (extensionId ∈ disabledIds) in
  ((isEnabled extensionId (JStr guildId) w).1 = true ↔
   enablement_rule (enabled cfg) mode disabledIds extensionId)
  ∧ match enabled cfg with
    | Some b => (isEnabled extensionId (JStr guildId) w).1 = b && negb listed
    | None =>
        (isEnabled extensionId (JStr guildId) w).1 =
        bool_decide (mode = Some "enable_all") && negb listed
    end.
Proof.
  intros cfg mode disabledIds listed.
  assert (guildExtensions (JStr guildId) w = cfg) as Hcfg.
  { unfold guildExtensions, cfg. simpl.
    destruct (config w !! guildId) as [[[c|]]|]; reflexivity. }
  assert (defaultMode w = mode) as Hmode.
  { unfold defaultMode, mode. destruct (sys_extensions (systemConfig w)) as [[]|]; reflexivity. }
  split.
  - rewrite isEnabled_true_iff, Hcfg, Hmode. reflexivity.
  - unfold isEnabled, listed, disabledIds. rewrite Hcfg, Hmode. simpl.
    destruct (enabled cfg), (disabled_extensions cfg) as [ids|]; simpl; try done;
      by rewrite (bool_decide_eq_false_2 (extensionId ∈ [])) by set_solver.
Qed.

(** ** Disabled extensions and unregistered event kinds *)

Section Recurrence.
Context {S : Type}.
Variable resolvers : gmap string Resolver.
Implicit Types (w : World S) (handler : @Handler S).

Lemma disabledLines_congr C w w' :
  config w = config w' → systemConfig w = systemConfig w' →
  disabledLines C w = disabledLines C w'.
Proof.
  intros Hc Hs. unfold disabledLines, defaultMode, guildExtensions.
  by rewrite Hc, Hs.
Qed.

(** However often the event recurs, a disabled extension's handler is not
    called; each occurrence leaves two debug lines. *)
Lemma recur_disabled extensionId eventName handler bail C occurrences w :
  isNullish C = false →
  (isEnabled extensionId C w).1 = false →
  Forall (λ args, resolveGuildId resolvers eventName args = Normal C) occurrences →
  let run := recur (wrapHandler resolvers extensionId eventName handler bail)
                   occurrences w in
  run.1 = replicate (length occurrences) (Fulfilled JUndefined) ∧
  calls run.2 = calls w ∧ ext run.2 = ext w ∧
  config run.2 = config w ∧ systemConfig run.2 = systemConfig w ∧
  logs run.2 = logs w ++ mjoin (replicate (length occurrences) (disabledLines C w)).
Proof.
  intros Hn Hd Hall. revert w Hd.
  induction Hall as [|args occs Hr _ IH]; intros w Hd; simpl.
  { by rewrite app_nil_r. }
  rewrite (wrapHandler_disabled resolvers _ _ _ _ _ _ C) by done.
  rewrite isEnabled_world.
  set (w1 := log LDebug _ (log LDebug _ w)).
  assert (config w1 = config w ∧ systemConfig w1 = systemConfig w) as [Hc Hs] by done.
  assert ((isEnabled extensionId C w1).1 = false) as Hd1
    by (by rewrite (isEnabled_congr _ _ w1 w)).
  specialize (IH w1 Hd1). simpl in IH.
  destruct (recur _ occs w1) as [rs w2]. simpl in *.
  destruct IH as (-> & -> & -> & -> & -> & ->).
  repeat split; try done.
  rewrite (disabledLines_congr C w1 w) by done.
  subst w1. simpl. by rewrite <- !app_assoc.
Qed.

(** However often an event without a resolver occurs, the handler is not
    called; each occurrence leaves one error line. *)
Lemma recur_unregistered extensionId eventName handler bail occurrences w :
  resolvers !! eventName = None →
  let run := recur (wrapHandler resolvers extensionId eventName handler bail)
                   occurrences w in
  run.1 = replicate (length occurrences) (Fulfilled JUndefined) ∧
  calls run.2 = calls w ∧ ext run.2 = ext w ∧
  logs run.2 = logs w ++
    replicate (length occurrences)
      {| level := LError;
         parts := [JStr "Invalid event or failed to fetch guild: "; JStr eventName] |}.
Proof.
  intros Hnone. revert w. induction occurrences as [|args occs IH]; intros w; simpl.
  { by rewrite app_nil_r. }
  rewrite wrapHandler_undefined by (unfold resolveGuildId; by rewrite Hnone).
  specialize (IH (log LError [JStr "Invalid event or failed to fetch guild: ";
                              JStr eventName] w)).
  simpl in IH. destruct (recur _ occs _) as [rs w2]. simpl in *.
  destruct IH as (-> & -> & -> & ->). repeat split; try done.
  by rewrite <- app_assoc.
Qed.

End Recurrence.

(** C4.  When the extension is disabled for the guild [C], the wrapped
    handler never calls the extension's handler for an occurrence whose
    guild id resolves to [C], however many such occurrences there are: every
    call returns [undefined], the extension's state and the record of
    handler calls stay as they were, and the only trace of each occurrence
    is the debug line of the rule and the debug line of the wrapper. *)
Theorem disabled_extension_never_invoked {S} (extensionId eventName : string)
    (handler : @Handler S) (bail : option bool) (C : JsVal)
    (occurrences : list (list JsVal)) (w : World S) :
  isNullish C = false →
  (isEnabled extensionId C w).1 = false →
  Forall (λ args, resolveGuildId managerResolvers eventName args = Normal C) occurrences →
  let run := recur (wrapHandler managerResolvers extensionId eventName handler bail)
                   occurrences w in
  run.1 = replicate (length occurrences) (Fulfilled JUndefined) ∧
  calls run.2 = calls w ∧ ext run.2 = ext w ∧
  logs run.2 = logs w ++ mjoin (replicate (length occurrences) (disabledLines C w)).
Proof.
  intros Hn Hd Hall.
  destruct (recur_disabled managerResolvers extensionId eventName handler bail C
              occurrences w Hn Hd Hall) as (H1 & H2 & H3 & _ & _ & H4).
  auto.
Qed.

Lemma disabled_extension_never_invoked_witness :
  let occurrences := replicate 3 (Scenario.messageIn "guild-1") in
  let run := recur (wrapHandler managerResolvers "welcomer" "messageCreate"
                      Scenario.counting None) occurrences Scenario.world in
  run.1 = replicate 3 (Fulfilled JUndefined) ∧
  calls run.2 = [] ∧ ext run.2 = 0 ∧
  logs run.2 = mjoin (replicate 3 (disabledLines (JStr "guild-1") Scenario.world)).
Proof.
  apply (disabled_extension_never_invoked "welcomer" "messageCreate" Scenario.counting
           None (JStr "guild-1") (replicate 3 (Scenario.messageIn "guild-1"))
           Scenario.world).
  - reflexivity.
  - vm_compute. reflexivity.
  - repeat constructor; vm_compute; reflexivity.
Defined.

(** C5.  For an event kind without an entry in the resolver table, every
    occurrence delivered to a wrapped handler is dropped: the call returns
    [undefined], the handler is not called, and exactly one line, of level
    error, is logged per occurrence. *)
Theorem unregistered_event_dropped {S} (extensionId eventName : string)
    (handler : @Handler S) (bail : option bool)
    (occurrences : list (list JsVal)) (w : World S) :
  managerResolvers !! eventName = None →
  let run := recur (wrapHandler managerResolvers extensionId eventName handler bail)
                   occurrences w in
  run.1 = replicate (length occurrences) (Fulfilled JUndefined) ∧
  calls run.2 = calls w ∧ ext run.2 = ext w ∧
  logs run.2 = logs w ++
    replicate (length occurrences)
      {| level := LError;
         parts := [JStr "Invalid event or failed to fetch guild: "; JStr eventName] |}.
Proof. apply recur_unregistered. Qed.

Lemma unregistered_event_dropped_witness :
  let run := recur (wrapHandler managerResolvers "greeter" "userUpdate"
                      Scenario.counting None)
                   [[JObj []; JObj []]; [JObj []; JObj []]] Scenario.world in
  run.1 = [Fulfilled JUndefined; Fulfilled JUndefined] ∧
  calls run.2 = [] ∧ ext run.2 = 0 ∧
  logs run.2 =
    replicate 2 {| level := LError;
                   parts := [JStr "Invalid event or failed to fetch guild: ";
                             JStr "userUpdate"] |}.
Proof.
  apply (unregistered_event_dropped "greeter" "userUpdate" Scenario.counting None
           [[JObj []; JObj []]; [JObj []; JObj []]] Scenario.world).
  vm_compute. reflexivity.
Defined.

(** ** The failure boundary *)

(** C10.  The [try] block of a wrapped handler holds the call of the
    extension's handler only.  The resolver runs before it: on arguments on
    which a registered resolver reads a property of [undefined] -- no
    argument at all for [applicationCommandPermissionsUpdate], no second
    argument for [guildAuditLogEntryCreate] -- the wrapped handler rejects
    with the [TypeError], whatever the extension and its handler, and
    nothing is logged. *)
Theorem resolver_exception_escapes :
  (∀ S extensionId (handler : @Handler S) bail (w : World S),
     wrapHandler managerResolvers extensionId "applicationCommandPermissionsUpdate"
       handler bail [] w =
     (Rejected (TypeError "Cannot read properties of undefined (reading 'guildId')"), w))
  ∧
  (∀ S extensionId (handler : @Handler S) bail (w : World S),
     wrapHandler managerResolvers extensionId "guildAuditLogEntryCreate"
       handler bail [JObj [("action", JStr "MemberKick")]] w =
     (Rejected (TypeError "Cannot read properties of undefined (reading 'id')"), w)).
Proof.
  split; intros; apply wrapHandler_resolver_throws; vm_compute; reflexivity.
Qed.

(** C1.  When the handler throws in a call made by the wrapped handler, the
    exception is caught: the wrapped handler fulfils with [undefined], the
    log ends with the line naming the extension and the line carrying the
    exception, and the effects the handler had before it threw remain.
    Nothing of this depends on the other handlers: over any series of
    occurrences whose resolvers do not throw, delivered to any subscriptions,
    the calls made are those of every subscribed handler that the
    enablement rule lets through, occurrence by occurrence and in
    subscription order -- whichever of them throw, and whether the host
    goes on or stops when a listener rejects. *)
Theorem handler_exception_contained {S} (stop : bool)
    (subs : list (@Subscription S)) (occurrences : list (string * list JsVal))
    (extensionId eventName : string) (handler : @Handler S) (bail : option bool)
    (args : list JsVal) (e : JsVal) (s' : S) (w : World S) :
  admits managerResolvers extensionId eventName args w = true →
  handler args (ext w) = (Throw e, s') →
  Forall (resolvable managerResolvers) occurrences →
  (∃ w', wrapHandler managerResolvers extensionId eventName handler bail args w =
           (Fulfilled JUndefined, w') ∧
         ext w' = s' ∧
         calls w' = calls w ++ [CallHandler extensionId eventName args] ∧
         logs w' = logs (entered managerResolvers extensionId eventName args w) ++
           [ {| level := LError;
                parts := [JStr ("Extension error: the extension '" +:+ extensionId +:+
                                "' seems to cause this exception")] |};
             {| level := LError; parts := [e] |} ])
  ∧ calls (deliver stop (subscribe managerResolvers subs) occurrences w) =
    calls w ++ flat_map (reached managerResolvers subs w) occurrences.
Proof.
  intros Ha Hthrow Hall. split; [|by apply deliver_calls].
  rewrite wrapHandler_admitted by done. cbv zeta.
  assert (ext (entered managerResolvers extensionId eventName args w) = ext w) as ->.
  { unfold entered. by destruct (resolveGuildId _ _ _) as [[]|]. }
  rewrite Hthrow. eexists. split; [reflexivity|]. simpl.
  split; [done|]. split; [|by rewrite <- app_assoc].
  unfold entered. by destruct (resolveGuildId _ _ _) as [[]|].
Qed.

Lemma handler_exception_contained_witness :
  (∃ w', wrapHandler managerResolvers "greeter" "messageCreate" Scenario.throwing None
           (Scenario.messageIn "guild-1") Scenario.world = (Fulfilled JUndefined, w') ∧
         ext w' = 1 ∧
         calls w' = [CallHandler "greeter" "messageCreate" (Scenario.messageIn "guild-1")] ∧
         logs w' =
           logs (entered managerResolvers "greeter" "messageCreate"
                   (Scenario.messageIn "guild-1") Scenario.world) ++
           [ {| level := LError;
                parts := [JStr "Extension error: the extension 'greeter' seems to cause this exception"] |};
             {| level := LError; parts := [JStr "boom"] |} ])
  ∧ calls (deliver true (subscribe managerResolvers Scenario.subscriptions)
             [("messageCreate", Scenario.messageIn "guild-1");
              ("messageCreate", Scenario.messageIn "guild-1")] Scenario.world) =
    [CallHandler "greeter" "messageCreate" (Scenario.messageIn "guild-1");
     CallHandler "logger" "messageCreate" (Scenario.messageIn "guild-1");
     CallHandler "greeter" "messageCreate" (Scenario.messageIn "guild-1");
     CallHandler "logger" "messageCreate" (Scenario.messageIn "guild-1")].
Proof.
  assert (admits managerResolvers "greeter" "messageCreate"
            (Scenario.messageIn "guild-1") Scenario.world = true) as Ha
    by (vm_compute; reflexivity).
  assert (Forall (resolvable managerResolvers)
            [("messageCreate", Scenario.messageIn "guild-1");
             ("messageCreate", Scenario.messageIn "guild-1")]) as Hall
    by (repeat constructor; exists (JStr "guild-1"); vm_compute; reflexivity).
  pose proof (handler_exception_contained true Scenario.subscriptions _
                "greeter" "messageCreate" Scenario.throwing None
                (Scenario.messageIn "guild-1") (JStr "boom") 1 Scenario.world
                Ha eq_refl Hall) as [H1 H2].
  split; [exact H1|]. rewrite H2. vm_compute. reflexivity.
Defined.

(** ** Activation *)

(** A loop that goes through calls both hooks of each extension in turn. *)
Lemma postConstruct_calls {S} (extensions : list (Extension S)) (w : World S) v w' :
  postConstruct extensions w = (Fulfilled v, w') →
  calls w' = calls w ++ interleaved extensions.
Proof.
  revert w. induction extensions as [|x xs IH]; intros w; simpl.
  - intros [= _ <-]. by rewrite app_nil_r.
  - destruct (ext_postConstruct x _) as [[[]|e] s]; try (intros Hrun; discriminate Hrun).
    destruct (ext_register x _) as [[[]|e] s2]; try (intros Hrun; discriminate Hrun).
    intros Hrun. apply IH in Hrun. rewrite Hrun. simpl. by rewrite <- !app_assoc.
Qed.

(** C2, as stated, fails: with [A] and [B] loaded in this order, the
    registration hook of [A] runs before the post-construction hook of
    [B]. *)
Lemma activation_not_two_phase :
  ¬ two_phase (calls (postConstruct [Scenario.A; Scenario.B] Scenario.fresh).2)
  ∧ ext (postConstruct [Scenario.A; Scenario.B] Scenario.fresh).2 =
    ["a.postConstruct"; "a.register"; "b.postConstruct"; "b.register"].
Proof.
  split; [|reflexivity].
  intros H. specialize (H 1 2 "a" "b" eq_refl eq_refl). lia.
Qed.

(** C2, amended.  Activation is one pass over the loaded extensions in load
    order: for each extension its post-construction hook is called and then
    its registration hook, which is awaited before the next extension is
    taken up.  An activation that goes through has called, for [A; B]:
    A's post-construction, A's registration, B's post-construction, B's
    registration. *)
Theorem activation_in_load_order {S} (extensions : list (Extension S)) (w : World S)
    (v : JsVal) (w' : World S) :
  postConstruct extensions w = (Fulfilled v, w') →
  calls w' = calls w ++ interleaved extensions.
Proof. apply postConstruct_calls. Qed.

Lemma activation_in_load_order_witness :
  calls (postConstruct [Scenario.A; Scenario.B] Scenario.fresh).2 =
  [CallPostConstruct "a"; CallRegister "a"; CallPostConstruct "b"; CallRegister "b"].
Proof.
  apply (activation_in_load_order [Scenario.A; Scenario.B] Scenario.fresh JUndefined
           (postConstruct [Scenario.A; Scenario.B] Scenario.fresh).2).
  reflexivity.
Defined.

(** ** The loader *)

Section LoaderFacts.
Context {S : Type}.
Variable path_resolve : string → string → string.
Variable safeParse : JsVal → SafeParseResult.
Variable construct :
  string → string → string → ExtensionMetadata → S → Completion (Extension S) * S.

Abbreviation load := (loadEach path_resolve safeParse construct).

(** The loop takes up the rest of the listing where the entries before it
    left off, unless they ended the run. *)
Lemma loadEach_app extensionsPath before after loaded (w : World S) :
  load extensionsPath (before ++ after) loaded w =
  match load extensionsPath before loaded w with
  | (Returned loaded', w') => load extensionsPath after loaded' w'
  | other => other
  end.
Proof.
  revert loaded w. induction before as [|entry before IH]; intros loaded w; [done|].
  simpl. destruct (negb (isDirectory entry) || _); [apply IH|].
  destruct (metadataFile entry) as [[json|e]|]; try done.
  destruct (safeParse json) as [meta|err]; [|apply IH].
  destruct (loadExtensionInitializer _ _ _ _ _ _) as [[x|e] w2]; [apply IH|done].
Qed.

Lemma loadEach_missing_manifest extensionsPath candidate after loaded (w : World S) :
  isDirectory candidate = true → entryName candidate ≠ ".extbuilds" →
  metadataFile candidate = None →
  load extensionsPath (candidate :: after) loaded w =
  (Exited (-1),
   log LError [JStr ("Extension " +:+ entryName candidate +:+ " does not have a " +:+
                     dquote +:+ "extension.json" +:+ dquote +:+ " file!")]
     (log LDebug [JStr "Loading extension from directory: ";
                  JStr (path_resolve extensionsPath (entryName candidate))] w)).
Proof.
  intros Hd Hn Hm. simpl. rewrite Hd, Hm. by rewrite bool_decide_false.
Qed.

Lemma loadEach_invalid_manifest extensionsPath candidate after loaded (w : World S)
    json error :
  isDirectory candidate = true → entryName candidate ≠ ".extbuilds" →
  metadataFile candidate = Some (Normal json) → safeParse json = ParseFailure error →
  load extensionsPath (candidate :: after) loaded w =
  load extensionsPath after loaded
    (log LError [error]
      (log LError [JStr ("Error parsing extension metadata for extension " +:+
                         entryName candidate)]
        (log LDebug [JStr "Loading extension from directory: ";
                     JStr (path_resolve extensionsPath (entryName candidate))] w))).
Proof.
  intros Hd Hn Hm Hp. simpl. rewrite Hd, Hm, Hp. by rewrite bool_decide_false.
Qed.

End LoaderFacts.

(** C9, as stated, fails: a candidate directory without a manifest does
    not end the process when a candidate listed before it has a manifest
    that is not JSON.  [loadExtensions] then throws the [SyntaxError] of
    [JSON.parse] and the loop never comes to the directory without a
    manifest. *)
Lemma earlier_exception_preempts_exit :
  isCandidate Scenario.orphanDir = true
  ∧ metadataFile Scenario.orphanDir = None
  ∧ ∃ w, loadExtensions Scenario.resolve Scenario.safeParse Scenario.construct
           (Some "/srv/extensions") (Normal [garbledDir; Scenario.orphanDir]) []
           Scenario.fresh
         = (Threw (JObj [("name", JStr "SyntaxError")]), w)
         ∧ calls w = [].
Proof.
  split; [reflexivity|]. split; [reflexivity|].
  eexists. split; reflexivity.
Qed.

(** C9, amended.  When the loop of [loadExtensions] comes to a candidate
    directory without an ["extension.json"] -- the entries before it neither
    threw nor ended the process -- it logs an error and ends the process
    with [process.exit(-1)], status 255: the entries after it are not looked
    at and nothing is skipped.  When it comes to a candidate whose manifest
    does not pass the schema, it logs two errors, leaves the list of loaded
    extensions as it is, and goes on with the entries after it. *)
Theorem missing_manifest_is_fatal {S} (path_resolve : string → string → string)
    (safeParse : JsVal → SafeParseResult)
    (construct : string → string → string → ExtensionMetadata → S →
                 Completion (Extension S) * S)
    (configured : option string) (extensionsPath : string)
    (before after : list DirEntry) (candidate : DirEntry)
    (loaded loaded' : list (Extension S)) (w w' : World S) :
  pathSet configured = Some extensionsPath →
  isDirectory candidate = true →
  entryName candidate ≠ ".extbuilds" →
  loadEach path_resolve safeParse construct extensionsPath before loaded w
    = (Returned loaded', w') →
  let entering :=
    log LDebug [JStr "Loading extension from directory: ";
                JStr (path_resolve extensionsPath (entryName candidate))] w' in
  let run := loadEach path_resolve safeParse construct extensionsPath
               (before ++ candidate :: after) loaded w in
  match metadataFile candidate with
  | None =>
      run = (Exited (-1),
             log LError [JStr ("Extension " +:+ entryName candidate +:+
                               " does not have a " +:+ dquote +:+ "extension.json" +:+
                               dquote +:+ " file!")] entering)
      ∧ exitStatus (-1) = 255%Z
      ∧ loadExtensions path_resolve safeParse construct configured
          (Normal (before ++ candidate :: after)) loaded w = run
  | Some (Normal json) =>
      match safeParse json with
      | ParseFailure error =>
          run = loadEach path_resolve safeParse construct extensionsPath after loaded'
                  (log LError [error]
                    (log LError [JStr ("Error parsing extension metadata for extension "
                                       +:+ entryName candidate)] entering))
      | ParseSuccess _ => True
      end
  | Some (Throw _) => True
  end.
Proof.
  intros Hset Hd Hn Hbefore entering run. subst run.
  destruct (metadataFile candidate) as [[json|e]|] eqn:Hm; [|done|].
  - destruct (safeParse json) as [meta|error] eqn:Hp; [done|].
    rewrite loadEach_app, Hbefore. by eapply loadEach_invalid_manifest.
  - assert (loadEach path_resolve safeParse construct extensionsPath
              (before ++ candidate :: after) loaded w =
            (Exited (-1),
             log LError [JStr ("Extension " +:+ entryName candidate +:+
                               " does not have a " +:+ dquote +:+ "extension.json" +:+
                               dquote +:+ " file!")] entering)) as Hrun.
    { rewrite loadEach_app, Hbefore. by apply loadEach_missing_manifest. }
    split; [done|]. split; [done|].
    unfold loadExtensions. by rewrite Hset, Hrun.
Qed.

Lemma missing_manifest_is_fatal_witness :
  let listing := [Scenario.welcomerDir; Scenario.readme; Scenario.extbuilds;
                  Scenario.brokenDir] in
  (* a directory without a manifest ends the process ... *)
  (∃ w, loadExtensions Scenario.resolve Scenario.safeParse Scenario.construct
          (Some "/srv/extensions")
          (Normal (listing ++ Scenario.orphanDir :: [Scenario.pollsDir])) [] Scenario.fresh
        = (Exited (-1), w)
        ∧ ext w = ["import /srv/extensions/welcomer/src/index.js"])
  (* ... one with a manifest that fails the schema is passed over *)
  ∧ (loadEach Scenario.resolve Scenario.safeParse Scenario.construct "/srv/extensions"
       ([Scenario.welcomerDir; Scenario.readme; Scenario.extbuilds] ++
        Scenario.brokenDir :: [Scenario.pollsDir]) [] Scenario.fresh).1
    = (loadEach Scenario.resolve Scenario.safeParse Scenario.construct "/srv/extensions"
         ([Scenario.welcomerDir; Scenario.readme; Scenario.extbuilds] ++
          [Scenario.pollsDir]) [] Scenario.fresh).1.
Proof.
  intros listing. split.
  - pose proof (missing_manifest_is_fatal Scenario.resolve Scenario.safeParse
                  Scenario.construct (Some "/srv/extensions") "/srv/extensions"
                  listing [Scenario.pollsDir] Scenario.orphanDir [] _ Scenario.fresh _
                  eq_refl eq_refl ltac:(discriminate) eq_refl) as H.
    cbv zeta in H. change (metadataFile Scenario.orphanDir) with (@None (Completion JsVal)) in H.
    cbv iota in H. destruct H as (Hrun & _ & Hload).
    rewrite Hload, Hrun. eexists. split; reflexivity.
  - pose proof (missing_manifest_is_fatal Scenario.resolve Scenario.safeParse
                  Scenario.construct (Some "/srv/extensions") "/srv/extensions"
                  [Scenario.welcomerDir; Scenario.readme; Scenario.extbuilds]
                  [Scenario.pollsDir] Scenario.brokenDir [] _ Scenario.fresh _
                  eq_refl eq_refl ltac:(discriminate) eq_refl) as H.
    cbv zeta in H.
    change (metadataFile Scenario.brokenDir)
      with (Some (Normal (JObj [("main", JStr "./index.js")]))) in H.
    cbv iota in H.
    change (Scenario.safeParse (JObj [("main", JStr "./index.js")]))
      with (ParseFailure (JStr "id: Required")) in H.
    cbv iota in H. rewrite H. vm_compute. reflexivity.
Defined.

(** ** The install pipeline *)

(** C8.  Without an extensions directory, [fetchAndInstallExtension] writes
    one chunk to the stream it was given -- a single line that starts with
    [E:] -- and returns it paired with [null]; no request is sent, the cache
    and the file system are not touched, nothing is logged. *)
Theorem unset_directory_aborts {FS} `{FsApi FS} (extensionsPath : option string)
    (request : string → HttpAnswer) (path_join : string → string → string)
    (percentText : N → N → string) (id : string) (stream : bool) (m : Machine FS) :
  pathSet extensionsPath = None →
  let run := fetchAndInstallExtension extensionsPath request path_join percentText
               id stream m in
  run.1 = RetPair JNull (JStr errorMessage) ∧
  sink run.2 = sink m ++ (if stream then [errorMessage] else []) ∧
  (∃ text, errorMessage = "E:" +:+ text +:+ nl ∧
           "010"%char ∉ String.list_ascii_of_string text) ∧
  files run.2 = files m ∧ outbound run.2 = outbound m ∧
  cacheStore run.2 = cacheStore m ∧ m_logs run.2 = m_logs m.
Proof.
  intros Hunset run. subst run. unfold fetchAndInstallExtension. rewrite Hunset.
  simpl. split; [done|]. split.
  { unfold writeStream. destruct stream; simpl; [done|by rewrite app_nil_r]. }
  split.
  { exists " Extensions directory is not set. Please set the EXTENSIONS_DIRECTORY environment variable.".
    split; [reflexivity|]. apply (bool_decide_unpack _). vm_compute. exact I. }
  unfold writeStream. by destruct stream.
Qed.

Lemma unset_directory_aborts_witness :
  let run := @fetchAndInstallExtension _ (Posix.api Scenario.archive []) None
               Scenario.request Posix.join (λ _ _, "0") "welcomer" true
               (Scenario.machine Scenario.base) in
  run.1 = RetPair JNull (JStr errorMessage) ∧
  sink run.2 = [errorMessage] ∧
  files run.2 = Scenario.base ∧ outbound run.2 = [].
Proof.
  destruct (@unset_directory_aborts _ (Posix.api Scenario.archive []) None
              Scenario.request Posix.join (λ _ _, "0") "welcomer" true
              (Scenario.machine Scenario.base) eq_refl)
    as (H1 & H2 & _ & H3 & H4 & _).
  auto.
Defined.

(** Facts about the pipeline shared by the properties below. *)

Section InstallMore.
Context {FS : Type} `{FsApi FS}.
Variable extensionsPath : option string.
Variable request : string → HttpAnswer.
Variable path_join : string → string → string.
Variable percentText : N → N → string.
Implicit Types m : Machine FS.

Lemma reportProgress_machine stream events m :
  reportProgress percentText stream events m =
  {| m_logs := m_logs m; outbound := outbound m; cacheStore := cacheStore m;
     now := now m;
     sink := sink m ++ (if stream then progressLines percentText events else []);
     files := files m |}.
Proof.
  revert m. induction events as [|[loaded total] events IH]; intros m.
  - destruct m, stream; simpl; by rewrite app_nil_r.
  - simpl. rewrite IH. unfold progressLines.
    destruct (decide (total = 0%N)) as [->|Hne].
    + by rewrite filter_cons_False by (simpl; tauto).
    + rewrite filter_cons_True by done.
      destruct stream; simpl; [|done]. by rewrite <- app_assoc.
Qed.

(** Writing to the stream and looking the catalog up do not interfere. *)
Lemma getExtensionMetadata_writeStream stream chunk id m :
  getExtensionMetadata request id (writeStream stream chunk m) =
  ((getExtensionMetadata request id m).1,
   writeStream stream chunk (getExtensionMetadata request id m).2).
Proof.
  destruct stream; [|done].
  unfold getExtensionMetadata, getExtensionMetadataCall, cacheCall, answerInFlight,
    cacheSettle, cacheAwait. simpl.
  destruct (cacheStore m !! "extension-index") as [entry|] eqn:Hentry; simpl.
  - case_bool_decide; simpl.
    + rewrite Hentry. by destruct entry as [t []].
    + by rewrite !lookup_insert_eq.
  - by rewrite !lookup_insert_eq.
Qed.

Lemma getExtensionMetadata_keeps id m :
  sink (getExtensionMetadata request id m).2 = sink m ∧
  files (getExtensionMetadata request id m).2 = files m.
Proof.
  unfold getExtensionMetadata, getExtensionMetadataCall, cacheCall, answerInFlight,
    cacheSettle. simpl.
  destruct (cacheStore m !! "extension-index") as [entry|] eqn:Hentry; simpl.
  - case_bool_decide; simpl.
    + rewrite Hentry. by destruct entry as [t []].
    + by rewrite !lookup_insert_eq.
  - by rewrite !lookup_insert_eq.
Qed.

Lemma writeStream_prefix stream chunk m :
  sink m `prefix_of` sink (writeStream stream chunk m).
Proof. destruct stream; simpl; [by apply prefix_app_r|done]. Qed.

Lemma installExtension_prefix filePath extension stream m :
  sink m `prefix_of` sink (installExtension extensionsPath path_join filePath extension stream m).
Proof.
  unfold installExtension. destruct (pathSet extensionsPath); [|done].
  destruct (systemPrefix _ _) as [tmp fs1].
  destruct (tar_x _ _ _) as [[[]|e] fs2];
    [destruct (fs_rename _ _ _) as [fs3|e];
      [destruct (fs_rm _ _ _) as [[[]|e] fs4]|]|];
    destruct stream; simpl; repeat apply prefix_app_r; done.
Qed.

End InstallMore.

(** Under rename(2) a destination that is a non-empty directory makes the
    call fail, whatever is moved onto it. *)
Lemma rename_occupied oldPath newPath fs :
  Posix.components oldPath ≠ Posix.components newPath →
  Posix.node (Posix.components newPath) fs = Some true →
  Posix.nonEmpty (Posix.components newPath) fs = true →
  ∃ e, Posix.rename oldPath newPath fs = Throw e.
Proof.
  intros Hne Hnew Hfull. unfold Posix.rename.
  destruct (Posix.blocked [] (Posix.components oldPath) fs); [by eexists|].
  destruct (Posix.node (Posix.components oldPath) fs) as [d|]; [|by eexists].
  destruct (Posix.blocked [] (Posix.components newPath) fs); [by eexists|].
  rewrite decide_False by done.
  destruct (Posix.below _ _); [by eexists|].
  rewrite Hnew, Hfull. destruct d; simpl; by eexists.
Qed.

(** Removing a path leaves every path that is not at or below it as it
    was. *)
Lemma node_prune p q fs :
  Posix.stripPrefix p q = None → Posix.node q (Posix.prune p fs) = Posix.node q fs.
Proof.
  intros Hq. unfold Posix.prune, Posix.Fs. induction fs as [|[r d] fs IH]; [done|].
  destruct (decide (Posix.stripPrefix p r = None)) as [Hr|Hr].
  - rewrite filter_cons_True by done. cbn [Posix.node]. by rewrite IH.
  - rewrite filter_cons_False by done. rewrite IH. cbn [Posix.node].
    destruct (decide (r = q)) as [->|]; [by destruct Hr|done].
Qed.

Lemma rm_keeps path recursive fs q :
  Posix.stripPrefix (Posix.components path) q = None →
  Posix.node q (Posix.rm path recursive fs).2 = Posix.node q fs.
Proof.
  intros Hq. unfold Posix.rm.
  destruct (Posix.node (Posix.components path) fs) as [[]|]; [destruct recursive| |];
    simpl; auto using node_prune.
Qed.

(** What [installExtension] leaves behind when the rename fails. *)
Lemma installExtension_rename_fails {FS} `{FsApi FS} (extensionsPath : option string)
    (path_join : string → string → string) (p filePath : string)
    (extension : ExtensionInfo) (stream : bool) (m : Machine FS)
    (tmp : string) (fs1 fs2 : FS) (e : JsVal) :
  pathSet extensionsPath = Some p →
  systemPrefix ("tmp/" +:+ info_id extension +:+ "-" +:+ info_version extension)
               (files m) = (tmp, fs1) →
  tar_x filePath tmp fs1 = (Normal (), fs2) →
  fs_rename (path_join tmp (info_shortName extension +:+ "-" +:+ info_version extension))
            (path_join p (info_shortName extension)) fs2 = Throw e →
  let m' := installExtension extensionsPath path_join filePath extension stream m in
  sink m' = sink m ++
    (if stream then
       [ "Preparing to unpack " +:+ label extension +:+ "..." +:+ nl;
         "Unpacking " +:+ label extension +:+ "..." +:+ nl;
         "Setting up " +:+ label extension +:+ "..." +:+ nl;
         "E: Failed to set up extension: " +:+ info_id extension +:+ nl ]
     else []) ∧
  files m' = fs2 ∧
  m_logs m' = m_logs m ++ [ {| level := LError; parts := [e] |} ].
Proof.
  intros Hset Hprefix Hunpack Hrename m'. subst m'. unfold installExtension.
  rewrite Hset.
  assert (files (writeStream stream
            ("Preparing to unpack " +:+ label extension +:+ "..." +:+ nl) m) = files m)
    as -> by (by destruct stream).
  rewrite Hprefix.
  assert (∀ chunk (x : Machine FS), files (writeStream stream chunk (setFiles fs1 x)) = fs1)
    as Hf1 by (by intros; destruct stream).
  rewrite Hf1, Hunpack.
  assert (∀ chunk (x : Machine FS), files (writeStream stream chunk (setFiles fs2 x)) = fs2)
    as Hf2 by (by intros; destruct stream).
  rewrite Hf2, Hrename.
  destruct stream; simpl; [|by rewrite app_nil_r].
  by rewrite <- !app_assoc.
Qed.

(** C7, as stated, fails: the destination [/srv/extensions/welcomer]
    exists, as an empty directory; the rename replaces it, no line starting
    with [E:] is written, and the pipeline goes on to its cleaning up. *)
Lemma existing_destination_replaced :
  Posix.node ["srv"; "extensions"; "welcomer"] Scenario.emptyDestination = Some true
  ∧ sink (Scenario.install Scenario.emptyDestination) =
    [ "Preparing to unpack Welcomer (1.0.0)..." +:+ nl;
      "Unpacking Welcomer (1.0.0)..." +:+ nl;
      "Setting up Welcomer (1.0.0)..." +:+ nl;
      "Cleaning up caches and temporary files..." +:+ nl ]
  ∧ Forall (λ line, String.prefix "E:" line = false)
      (sink (Scenario.install Scenario.emptyDestination))
  ∧ Posix.node ["srv"; "extensions"; "welcomer"; "extension.json"]
      (files (Scenario.install Scenario.emptyDestination)) = Some false.
Proof.
  split; [reflexivity|]. split; [vm_compute; reflexivity|].
  split; [|vm_compute; reflexivity].
  repeat constructor.
Qed.

(** C7, amended.  The file system follows rename(2); the catalog entry is
    found, its tarball is downloaded to [filePath] and unpacked into the
    temporary directory.  If then the destination directory
    [{extensionsPath}/{shortName}] exists and is not empty, or the rename of
    the extracted subdirectory fails for another reason, the rename fails,
    its error is logged and the last line but for the clean-up of the
    download is [E: Failed to set up extension: <id>].  [installExtension]
    stops there: the temporary directory is not removed.  Back in
    [fetchAndInstallExtension] only the downloaded tarball is removed, and
    the call returns [undefined].  Every path other than the tarball --
    the destination directory and what it holds among them -- is as the
    unpacking left it: an installed extension is not overwritten. *)
Theorem occupied_destination_kept (api : FsApi Posix.Fs)
    (extensionsPath : option string) (request : string → HttpAnswer)
    (path_join : string → string → string) (percentText : N → N → string)
    (p id : string) (stream : bool) (extension : ExtensionInfo)
    (m : Machine Posix.Fs) (url : string) (urls : list string)
    (downloads filePath tmp : string) (events : list (N * N))
    (fsA fsB fs1 fs2 : Posix.Fs) :
  (∀ oldPath newPath fs, fs_rename oldPath newPath fs = Posix.rename oldPath newPath fs) →
  (∀ path recursive fs, fs_rm path recursive fs = Posix.rm path recursive fs) →
  pathSet extensionsPath = Some p →
  (getExtensionMetadata request id m).1 = (Some extension, None) →
  tarballs extension = url :: urls →
  systemPrefix "tmp" (files m) = (downloads, fsA) →
  downloadFile url downloads
    (info_id extension +:+ "-" +:+ info_version extension +:+ ".tar.gz") fsA
    = ((events, Normal filePath), fsB) →
  systemPrefix ("tmp/" +:+ info_id extension +:+ "-" +:+ info_version extension) fsB
    = (tmp, fs1) →
  tar_x filePath tmp fs1 = (Normal (), fs2) →
  let source :=
    path_join tmp (info_shortName extension +:+ "-" +:+ info_version extension) in
  let destination := path_join p (info_shortName extension) in
  Posix.components source ≠ Posix.components destination →
  (Posix.node (Posix.components destination) fs2 = Some true ∧
   Posix.nonEmpty (Posix.components destination) fs2 = true)
  ∨ (∃ e, Posix.rename source destination fs2 = Throw e) →
  let run := fetchAndInstallExtension extensionsPath request path_join percentText
               id stream m in
  let removal := Posix.rm filePath false fs2 in
  (∃ e, Posix.rename source destination fs2 = Throw e ∧
        {| level := LError; parts := [e] |} ∈ m_logs run.2) ∧
  run.1 = RetUndefined ∧
  sink run.2 = sink m ++
    (if stream then
       [ "Fetching metadata for extension " +:+ id +:+ "..." +:+ nl;
         "Retrieving " +:+ label extension +:+
           " from the SudoBot Extension Repository (SER)..." +:+ nl;
         downloadProgressStreamEOF; nl ] ++
       progressLines percentText events ++
       [ downloadProgressStreamEOF; nl;
         "Preparing to unpack " +:+ label extension +:+ "..." +:+ nl;
         "Unpacking " +:+ label extension +:+ "..." +:+ nl;
         "Setting up " +:+ label extension +:+ "..." +:+ nl;
         "E: Failed to set up extension: " +:+ info_id extension +:+ nl ] ++
       match removal.1 with
       | Throw _ => [ "W: Failed to clean download caches for extension: " +:+ id +:+ nl ]
       | Normal _ => []
       end
     else []) ∧
  files run.2 = removal.2 ∧
  ∀ q, Posix.stripPrefix (Posix.components filePath) q = None →
       Posix.node q (files run.2) = Posix.node q fs2.
Proof.
  intros Hrename Hrm Hset Hfound Htarballs Hdownloads Hdownload Htmp Hunpack
    source destination Hdistinct Hfails run removal.
  assert (∃ e, Posix.rename source destination fs2 = Throw e) as [e He].
  { destruct Hfails as [[Hdir Hfull]|Hthrows]; [|done]. by apply rename_occupied. }
  assert (files run.2 = removal.2 → ∀ q,
            Posix.stripPrefix (Posix.components filePath) q = None →
            Posix.node q (files run.2) = Posix.node q fs2) as Hkept.
  { intros -> q Hq. by apply rm_keeps. }
  revert Hkept. subst run removal.
  unfold fetchAndInstallExtension. rewrite Hset.
  rewrite getExtensionMetadata_writeStream.
  destruct (getExtensionMetadata_keeps request id m) as [Hsink Hfiles].
  destruct (getExtensionMetadata request id m) as [[found err] m2].
  simpl in Hfound, Hsink, Hfiles. injection Hfound as -> ->.
  cbn [fst snd]. lazy beta iota zeta. rewrite Htarballs.
  match goal with
  | |- context [systemPrefix "tmp" (files ?x)] => set (m4 := x)
  end.
  assert (sink m4 = sink m ++
            (if stream then
               [ "Fetching metadata for extension " +:+ id +:+ "..." +:+ nl;
                 "Retrieving " +:+ label extension +:+
                   " from the SudoBot Extension Repository (SER)..." +:+ nl;
                 downloadProgressStreamEOF; nl ]
             else [])) as Hsink4.
  { subst m4. destruct stream; simpl; rewrite Hsink, <- ?app_assoc, ?app_nil_r; done. }
  assert (files m4 = files m) as Hfiles4 by (subst m4; destruct stream; simpl; done).
  clearbody m4. rewrite Hfiles4, Hdownloads, Hdownload.
  match goal with
  | |- context [installExtension _ _ _ _ _ ?x] => set (m6 := x)
  end.
  assert (sink m6 = sink m4 ++
            (if stream then progressLines percentText events ++
                            [downloadProgressStreamEOF; nl]
             else [])) as Hsink6.
  { subst m6. rewrite reportProgress_machine.
    destruct stream; simpl; rewrite <- ?app_assoc, ?app_nil_r; done. }
  assert (files m6 = fsB) as Hfiles6.
  { subst m6. rewrite reportProgress_machine. by destruct stream. }
  clearbody m6.
  pose proof (installExtension_rename_fails extensionsPath path_join p filePath
                extension stream m6 tmp fs1 fs2 e Hset) as Hinstall.
  cbv zeta in Hinstall.
  destruct Hinstall as (Hsink7 & Hfiles7 & Hlogs7);
    [by rewrite Hfiles6|done|by rewrite Hrename|].
  set (m7 := installExtension extensionsPath path_join filePath extension stream m6) in *.
  clearbody m7. rewrite Hfiles7, Hrm.
  assert (sink m7 = sink m ++
            (if stream then
               [ "Fetching metadata for extension " +:+ id +:+ "..." +:+ nl;
                 "Retrieving " +:+ label extension +:+
                   " from the SudoBot Extension Repository (SER)..." +:+ nl;
                 downloadProgressStreamEOF; nl ] ++
               progressLines percentText events ++
               [ downloadProgressStreamEOF; nl;
                 "Preparing to unpack " +:+ label extension +:+ "..." +:+ nl;
                 "Unpacking " +:+ label extension +:+ "..." +:+ nl;
                 "Setting up " +:+ label extension +:+ "..." +:+ nl;
                 "E: Failed to set up extension: " +:+ info_id extension +:+ nl ]
             else [])) as Hsink7'.
  { rewrite Hsink7, Hsink6, Hsink4.
    destruct stream; simpl; rewrite <- ?app_assoc, ?app_nil_r; simpl; done. }
  destruct (Posix.rm filePath false fs2) as [[[]|e'] fs3]; cbn [fst snd]; intros Hkept.
  - split.
    { exists e. split; [done|]. simpl. rewrite Hlogs7.
      apply elem_of_app. right. by apply list_elem_of_singleton. }
    split; [done|]. split; [|split; [done|by apply Hkept]].
    simpl. rewrite Hsink7'. destruct stream; rewrite ?app_nil_r; done.
  - split.
    { exists e. split; [done|].
      assert (∀ chunk x, m_logs (writeStream (FS:=Posix.Fs) stream chunk x) = m_logs x)
        as -> by (by intros; destruct stream).
      simpl. rewrite Hlogs7. apply elem_of_app. left.
      apply elem_of_app. right. by apply list_elem_of_singleton. }
    split; [done|]. split; [|split; [by destruct stream|apply Hkept; by destruct stream]].
    destruct stream; simpl; rewrite Hsink7'; [|done].
    by rewrite <- !app_assoc.
Qed.

Lemma occupied_destination_kept_witness :
  let run := @fetchAndInstallExtension _ (Posix.api Scenario.archive [])
               (Some "/srv/extensions") Scenario.request Posix.join (λ _ _, "0")
               "welcomer" true (Scenario.machine Scenario.installed) in
  run.1 = RetUndefined ∧
  last (sink run.2) = Some ("E: Failed to set up extension: welcomer" +:+ nl) ∧
  Posix.node ["srv"; "extensions"; "welcomer"; "settings.json"] (files run.2) = Some false ∧
  Posix.node ["opt"; "sudobot"; "tmp"; "welcomer-1.0.0"; "welcomer-1.0.0"] (files run.2)
    = Some true ∧
  Posix.node ["opt"; "sudobot"; "tmp"; "welcomer-1.0.0.tar.gz"] (files run.2) = None.
Proof.
  intros run.
  edestruct (occupied_destination_kept (Posix.api Scenario.archive [])
               (Some "/srv/extensions") Scenario.request Posix.join (λ _ _, "0")
               "/srv/extensions" "welcomer" true Scenario.welcomer
               (Scenario.machine Scenario.installed)
               "https://extensions.example/welcomer-1.0.0.tar.gz" []
               "/opt/sudobot/tmp" Scenario.tarball "/opt/sudobot/tmp/welcomer-1.0.0" [])
    as (_ & Hret & Hsink & Hfiles & _).
  - intros; reflexivity.
  - intros; reflexivity.
  - reflexivity.
  - vm_compute. reflexivity.
  - reflexivity.
  - vm_compute. reflexivity.
  - vm_compute. reflexivity.
  - vm_compute. reflexivity.
  - vm_compute. reflexivity.
  - vm_compute. discriminate.
  - left. split; vm_compute; reflexivity.
  - split; [exact Hret|].
    split; [fold run in Hsink; rewrite Hsink; vm_compute; reflexivity|].
    fold run in Hfiles. rewrite Hfiles. repeat split; vm_compute; reflexivity.
Defined.

(** ** The metadata client *)

Section CacheFacts.
Context {FS : Type}.
Implicit Types m : Machine FS.

Lemma cacheCall_miss key ttl start m :
  stale key m →
  cacheCall key ttl start m =
  (true, setCache (<[key := {| expiresAt := (now m + ttl)%Z; promise := Pending |}]>
                     (cacheStore (start m))) (start m)).
Proof.
  unfold stale, cacheCall. destruct (cacheStore m !! key) as [entry|]; [|done].
  intros Hexp. rewrite bool_decide_false by lia. done.
Qed.

Lemma cacheCall_hit key ttl start m entry :
  cacheStore m !! key = Some entry → (now m < expiresAt entry)%Z →
  cacheCall key ttl start m = (false, m).
Proof.
  unfold cacheCall. intros -> Hlive. by rewrite bool_decide_true.
Qed.

(** A call starts the fetch at most once. *)
Lemma cacheCall_once key ttl m :
  (List.length (outbound (cacheCall key ttl fetchStart m).2) ≤
   List.length (outbound m) + 1)%nat.
Proof.
  unfold cacheCall. destruct (cacheStore m !! key) as [entry|]; simpl.
  - case_bool_decide; simpl; rewrite ?length_app; simpl; lia.
  - rewrite length_app. simpl. lia.
Qed.

End CacheFacts.

(** C6.  With a catalog that answers, and no live entry to begin with, two
    calls of [getExtensionMetadata] less than 120 seconds apart send one
    request between them: the first stores an entry under the key
    ["extension-index"] that lives for 120000 milliseconds, the second is
    answered from it, and both return the catalog's entry for the id.  The
    entry is stored when the request is sent, so a second caller who arrives
    while it is still in flight sends none either; and no call sends more
    than one request. *)
Theorem second_fetch_served_from_cache {FS} (request : string → HttpAnswer)
    (catalog : gmap string ExtensionInfo) (id : string) (elapsed : Z) (m : Machine FS) :
  healthy catalog request →
  stale "extension-index" m →
  (0 ≤ elapsed < 120000)%Z →
  let first := getExtensionMetadata request id m in
  let second := getExtensionMetadata request id (elapse elapsed first.2) in
  let started := getExtensionMetadataCall m in
  let late := getExtensionMetadataCall (elapse elapsed started.2) in
  first.1 = (catalog !! id, None) ∧ second.1 = (catalog !! id, None) ∧
  outbound first.2 = outbound m ++ [extensionIndexURL] ∧
  outbound second.2 = outbound m ++ [extensionIndexURL] ∧
  cacheStore started.2 !! "extension-index" =
    Some {| expiresAt := (now m + 120000)%Z; promise := Pending |} ∧
  started.1 = true ∧ late.1 = false ∧
  outbound late.2 = outbound m ++ [extensionIndexURL] ∧
  ∀ m0 : Machine FS,
    (List.length (outbound (getExtensionMetadataCall m0).2) ≤
     List.length (outbound m0) + 1)%nat.
Proof.
  intros Hhealthy Hstale Hwithin first second started late.
  assert (started = (true,
            setCache (<["extension-index" :=
                        {| expiresAt := (now m + 120000)%Z; promise := Pending |}]>
                        (cacheStore (fetchStart m))) (fetchStart m))) as Hstarted
    by (by apply cacheCall_miss).
  assert (fetchFinish (request extensionIndexURL) = (Some catalog, None)) as Hfinish.
  { rewrite Hhealthy. reflexivity. }
  set (resolved := {| expiresAt := (now m + 120000)%Z;
                      promise := Resolved (Some catalog, None) |}).
  assert (first = ((catalog !! id, None),
                   setCache (<["extension-index" := resolved]>
                               (cacheStore started.2)) started.2)) as Hfirst.
  { subst first. unfold getExtensionMetadata, answerInFlight, cacheSettle, cacheAwait.
    fold started. rewrite Hstarted. simpl. rewrite lookup_insert_eq. simpl.
    rewrite lookup_insert_eq, Hfinish. done. }
  assert (late = (false, elapse elapsed started.2)) as Hlate.
  { subst late. unfold getExtensionMetadataCall.
    eapply cacheCall_hit.
    - rewrite Hstarted. simpl. apply lookup_insert_eq.
    - rewrite Hstarted. simpl. lia. }
  assert (second = ((catalog !! id, None), elapse elapsed first.2)) as Hsecond.
  { subst second. unfold getExtensionMetadata, getExtensionMetadataCall.
    erewrite cacheCall_hit; cycle 1.
    - rewrite Hfirst. simpl. apply lookup_insert_eq.
    - rewrite Hfirst, Hstarted. simpl. lia.
    - unfold answerInFlight, cacheSettle, cacheAwait. rewrite Hfirst. simpl.
      rewrite lookup_insert_eq. simpl. rewrite lookup_insert_eq. done. }
  rewrite Hsecond, Hlate, Hfirst, Hstarted. simpl.
  repeat split; try done.
  - apply lookup_insert_eq.
  - intros m0. apply cacheCall_once.
Qed.

Lemma second_fetch_served_from_cache_witness :
  let first := getExtensionMetadata Scenario.request "welcomer"
                 (Scenario.machine Scenario.base) in
  let second := getExtensionMetadata Scenario.request "welcomer"
                  (elapse 119999 first.2) in
  first.1 = (Some Scenario.welcomer, None) ∧ second.1 = (Some Scenario.welcomer, None) ∧
  outbound second.2 = [extensionIndexURL].
Proof.
  destruct (second_fetch_served_from_cache Scenario.request Scenario.catalog "welcomer"
              119999 (Scenario.machine Scenario.base))
    as (H1 & H2 & _ & H4 & _).
  - intros url. reflexivity.
  - exact I.
  - lia.
  - cbv zeta. rewrite H1, H2, H4. repeat split; vm_compute; reflexivity.
Defined.

(** * Further properties *)

(** ** The resolver map *)

Lemma foldResolvers_registrations table acc :
  foldl (λ acc entry, foldl (registerEvent (resolver entry)) acc (events entry)) acc table =
  foldl (λ st p, registerEvent p.2 st p.1) acc (registrations table).
Proof.
  revert acc. induction table as [|entry table IH]; intros acc; [done|].
  unfold registrations in *. simpl. rewrite foldl_app, IH. f_equal.
  generalize (events entry). clear. intros evs. revert acc.
  induction evs as [|ev evs IH]; intros acc; [done|]. simpl. apply IH.
Qed.

Lemma registrations_lookup (regs : list (string * Resolver)) st ev :
  (foldl (λ st p, registerEvent p.2 st p.1) st regs).1 !! ev =
  match last (filter (λ p, p.1 = ev) regs) with
  | Some p => Some p.2
  | None => st.1 !! ev
  end.
Proof.
  revert st. induction regs as [|[ev' r] regs IH]; intros st; [done|].
  simpl. rewrite IH.
  destruct (decide (ev' = ev)) as [->|Hne].
  - rewrite filter_cons_True by done.
    destruct (filter _ regs) as [|p ps] eqn:Hf; simpl.
    + by rewrite lookup_insert_eq.
    + destruct (last (p :: ps)) eqn:Hl; [done|]. by apply last_None in Hl.
  - rewrite filter_cons_False by done.
    destruct (last (filter _ regs)); [done|]. simpl. by rewrite lookup_insert_ne.
Qed.

Transparent getGuildIdResolversMap managerResolvers.

Lemma getGuildIdResolversMap_fold : getGuildIdResolversMap = foldResolvers guildIdResolvers.
Proof. unfold getGuildIdResolversMap, foldResolvers, registerEvent. reflexivity. Qed.

Lemma managerResolvers_fold : managerResolvers = (foldResolvers guildIdResolvers).1.
Proof. unfold managerResolvers. by rewrite getGuildIdResolversMap_fold. Qed.

Opaque getGuildIdResolversMap managerResolvers.

(** X1.  Looking an event kind up in the map built from a table gives the
    resolver of the last entry that lists the kind, and nothing when no
    entry lists it; the manager's map is the one built from the table of
    the source. *)
Theorem resolver_map_last_wins (table : list GuildIdResolverEntry) (ev : string) :
  (foldResolvers table).1 !! ev =
    snd <$> last (filter (λ p, p.1 = ev) (registrations table))
  ∧ getGuildIdResolversMap = foldResolvers guildIdResolvers.
Proof.
  split; [|apply getGuildIdResolversMap_fold].
  unfold foldResolvers. rewrite foldResolvers_registrations, registrations_lookup.
  simpl. by destruct (last _).
Qed.

Lemma registrations_keys table : (registrations table).*1 = flat_map events table.
Proof.
  induction table as [|entry table IH]; [done|].
  unfold registrations in *. simpl. rewrite fmap_app, IH. f_equal.
  rewrite <- list_fmap_compose. by rewrite list_fmap_id.
Qed.

Lemma registrations_warnings (regs : list (string * Resolver)) st :
  (foldl (λ st p, registerEvent p.2 st p.1) st regs).2 = [] ↔
  st.2 = [] ∧ NoDup regs.*1 ∧ ∀ ev, ev ∈ regs.*1 → st.1 !! ev = None.
Proof.
  revert st. induction regs as [|[ev r] regs IH]; intros st.
  - simpl. split; [|tauto]. intros ->. split; [done|]. split; [constructor|].
    intros ev Hin. by apply elem_of_nil in Hin.
  - simpl. rewrite IH. simpl. rewrite NoDup_cons. split.
    + intros (Hw & Hnd & Hfree).
      destruct (decide (is_Some (st.1 !! ev))) as [Hs|Hn].
      { by apply app_eq_nil in Hw as [_ ?]. }
      split; [done|]. split.
      * split; [|done]. intros Hin. specialize (Hfree ev Hin).
        by rewrite lookup_insert_eq in Hfree.
      * intros ev' [->|Hin]%elem_of_cons.
        { by apply eq_None_not_Some. }
        specialize (Hfree ev' Hin).
        destruct (decide (ev = ev')) as [->|Hne].
        { by rewrite lookup_insert_eq in Hfree. }
        by rewrite lookup_insert_ne in Hfree.
    + intros (Hw & [Hnotin Hnd] & Hfree).
      rewrite decide_False; cycle 1.
      { rewrite (Hfree ev) by (apply list_elem_of_here). by intros [? ?]. }
      split; [done|]. split; [done|].
      intros ev' Hin. rewrite lookup_insert_ne by (by intros ->).
      apply Hfree. by apply list_elem_of_further.
Qed.

(** X2.  Building the map logs warnings exactly when some event kind is
    listed more than once in the table, within one entry or across
    entries. *)
Theorem overlap_warned_iff_duplicate (table : list GuildIdResolverEntry) :
  (foldResolvers table).2 = [] ↔ NoDup (flat_map events table).
Proof.
  unfold foldResolvers. rewrite foldResolvers_registrations, registrations_warnings.
  rewrite registrations_keys. simpl. split; [tauto|]. intros Hnd.
  split; [done|]. split; [done|]. intros ev _. apply lookup_empty.
Qed.

(** Every resolver in a built map is the resolver of a table entry that
    lists the event kind. *)
Lemma foldResolvers_entry table ev r :
  (foldResolvers table).1 !! ev = Some r →
  ∃ entry, entry ∈ table ∧ ev ∈ events entry ∧ r = resolver entry.
Proof.
  unfold foldResolvers.
  rewrite foldResolvers_registrations, registrations_lookup. simpl.
  destruct (last _) as [[ev' r']|] eqn:Hl; [|by rewrite lookup_empty].
  intros [= <-]. apply last_Some_elem_of in Hl.
  apply list_elem_of_filter in Hl as [Hev Hin]. simpl in Hev. subst ev'.
  unfold registrations in Hin. rewrite list_elem_of_In, in_flat_map in Hin.
  destruct Hin as (entry & He & Hp).
  rewrite <- list_elem_of_In, list_elem_of_fmap in Hp.
  destruct Hp as (ev' & [= -> ->] & Hin).
  exists entry. by rewrite list_elem_of_In.
Qed.

Lemma managerResolvers_entry ev r :
  managerResolvers !! ev = Some r →
  ∃ entry, entry ∈ guildIdResolvers ∧ ev ∈ events entry ∧ r = resolver entry.
Proof. rewrite managerResolvers_fold. apply foldResolvers_entry. Qed.

(** ** What the resolvers can yield *)

Lemma coalesce_not_null a b : b ≠ Normal JNull → coalesce a b ≠ Normal JNull.
Proof.
  intros Hb. unfold coalesce. destruct a as [x|e]; simpl; [|done].
  destruct x; simpl; done.
Qed.

Lemma undefinedC_not_null : undefinedC ≠ Normal JNull.
Proof. done. Qed.

(** X3.  Apart from the connection-lifecycle kinds, the channel kinds and
    [applicationCommandPermissionsUpdate], no resolver in the manager's map
    ever yields [null]: for every other event kind the wrapped handler
    cannot skip the enablement check. *)
Theorem only_listed_kinds_resolve_to_null (ev : string) (r : Resolver)
    (args : list JsVal) :
  managerResolvers !! ev = Some r →
  ev ∉ uncoalescedEvents →
  r args ≠ Normal JNull.
Proof.
  intros Hlook Hnot.
  destruct (managerResolvers_entry ev r Hlook) as (entry & Hentry & Hev & ->).
  assert (Forall (λ entry, events entry ⊆ uncoalescedEvents ∨
                           ∀ args, resolver entry args ≠ Normal JNull)
                 guildIdResolvers) as Hall.
  { unfold guildIdResolvers.
    repeat (apply Forall_cons; split;
            [first [ left; apply (bool_decide_unpack _); vm_compute; exact I
                   | right; intros ?; cbv beta zeta;
                     repeat (apply coalesce_not_null); exact undefinedC_not_null ]|]).
    constructor. }
  rewrite Forall_forall in Hall. destruct (Hall entry Hentry) as [Hsub|Hnever]; [|done].
  exfalso. apply Hnot, Hsub, Hev.
Qed.

Lemma only_listed_kinds_resolve_to_null_witness :
  ∃ r, managerResolvers !! "guildMemberAdd" = Some r ∧
       r [JObj [("guild", JObj [("id", JNull)])]] ≠ Normal JNull.
Proof.
  eexists. split; [vm_compute; reflexivity|].
  eapply (only_listed_kinds_resolve_to_null "guildMemberAdd").
  - vm_compute. reflexivity.
  - apply (bool_decide_unpack _). vm_compute. exact I.
Defined.

Lemma getProp_safe d k : isNullish d = false → safe (getProp d k).
Proof. destruct d; intros Hd; try discriminate Hd; by eexists. Qed.

Lemma optChain_safe v f :
  (∀ d, isNullish d = false → safe (f d)) → safe (optChain v f).
Proof.
  intros Hf. unfold optChain. destruct (isNullish v) eqn:Hv; [by eexists|by apply Hf].
Qed.

Lemma bind_safe (c : Completion JsVal) (k : JsVal → Completion JsVal) :
  safe c → (∀ x, safe (k x)) → safe (c ≫= k).
Proof. intros [x ->] Hk. apply Hk. Qed.

Lemma coalesce_safe a b : safe a → safe b → safe (coalesce a b).
Proof.
  intros [x ->] Hb. unfold coalesce. simpl. destruct (isNullish x); [done|by eexists].
Qed.

Lemma undefinedC_safe : safe undefinedC.
Proof. by eexists. Qed.

(** X4.  For the event kinds whose resolver guards every property read --
    the message, emoji, sticker, stage and thread creation and deletion
    kinds, [messageReactionRemoveAll], [guildScheduledEventUpdate] and the
    lifecycle kinds -- the resolver never throws, whatever the arguments are
    (missing, [null], or of any shape).  So, whenever the id it yields is
    not an object, the wrapped handler does not reject, whatever the
    extension and whatever its handler does. *)
Theorem guarded_kinds_never_throw (eventName : string) (args : list JsVal) :
  eventName ∈ guardedEvents →
  ∃ guildId,
    resolveGuildId managerResolvers eventName args = Normal guildId ∧
    (isPrimitive guildId = true →
     ∀ (S : Type) (extensionId : string) (handler : @Handler S) (bail : option bool)
       (w : World S),
       ∃ v w', wrapHandler managerResolvers extensionId eventName handler bail args w =
               (Fulfilled v, w')).
Proof.
  intros Hin.
  assert (safe (resolveGuildId managerResolvers eventName args)) as Hsafe.
  { unfold resolveGuildId.
    destruct (managerResolvers !! eventName) as [r|] eqn:Hlook; [|by eexists].
    destruct (managerResolvers_entry eventName r Hlook) as (entry & Hentry & Hev & ->).
    assert (Forall (λ entry, Forall (λ ev, ev ∉ guardedEvents) (events entry) ∨
                             ∀ args, safe (resolver entry args))
                   guildIdResolvers) as Hall.
    { unfold guildIdResolvers.
      repeat (apply Forall_cons; split;
              [first [ left; apply (bool_decide_unpack _); vm_compute; exact I
                     | right; intros ?; cbv beta zeta;
                       repeat first [ apply coalesce_safe
                                    | apply undefinedC_safe
                                    | apply optChain_safe; intros ? ?
                                    | apply bind_safe; [|intros ?]
                                    | by apply getProp_safe
                                    | by eexists ] ]|]).
      constructor. }
    rewrite Forall_forall in Hall. destruct (Hall entry Hentry) as [Hnone|Htotal]; [|done].
    rewrite Forall_forall in Hnone. by destruct (Hnone eventName Hev). }
  destruct Hsafe as [guildId Hresolved]. exists guildId. split; [done|].
  intros _ S extensionId handler bail w.
  destruct (wrapHandler_calls managerResolvers extensionId eventName handler bail args w)
    as (v & w' & Hrun & _); [by exists guildId|].
  eauto.
Qed.

Lemma guarded_kinds_never_throw_witness :
  ∃ guildId,
    resolveGuildId managerResolvers "messageCreate" [JNull; JBool true] = Normal guildId ∧
    (isPrimitive guildId = true →
     ∀ (S : Type) (extensionId : string) (handler : @Handler S) (bail : option bool)
       (w : World S),
       ∃ v w', wrapHandler managerResolvers extensionId "messageCreate" handler bail
                 [JNull; JBool true] w = (Fulfilled v, w')).
Proof.
  apply (guarded_kinds_never_throw "messageCreate" [JNull; JBool true]).
  apply (bool_decide_unpack _). vm_compute. exact I.
Defined.

Lemma lifecycle_resolve_to_null :
  Forall (λ ev, ∀ args, resolveGuildId managerResolvers ev args = Normal JNull)
         lifecycleEvents.
Proof. repeat constructor; intros args; vm_compute; reflexivity. Qed.

(** X5.  For the connection-lifecycle kinds the wrapped handler reads no
    configuration: whatever the per-guild and system settings are, it logs
    ["Running: ..."] and calls the handler -- an extension cannot be
    disabled for these events. *)
Theorem lifecycle_kinds_always_run {S} (extensionId eventName : string)
    (handler : @Handler S) (bail : option bool) (args : list JsVal) (w : World S) :
  eventName ∈ lifecycleEvents →
  wrapHandler managerResolvers extensionId eventName handler bail args w =
  let w3 := recordCall (CallHandler extensionId eventName args)
              (log LInfo [JStr ("Running: " +:+ eventName +:+ " [" +:+ extensionId +:+ "]")]
                   w) in
  match handler args (ext w) with
  | (Normal v, s') => (Fulfilled v, setExt s' w3)
  | (Throw e, s') =>
      (Fulfilled JUndefined,
       log LError [e]
         (log LError [JStr ("Extension error: the extension '" +:+ extensionId +:+
                            "' seems to cause this exception")] (setExt s' w3)))
  end.
Proof.
  intros Hin. pose proof lifecycle_resolve_to_null as Hall.
  rewrite Forall_forall in Hall. specialize (Hall eventName Hin args).
  unfold wrapHandler. rewrite Hall. simpl.
  destruct (handler args (ext w)) as [[v|e] s']; [done|]. by destruct bail as [[]|].
Qed.

Lemma lifecycle_kinds_always_run_witness :
  (* [guild-2] has extensions switched off, and still: *)
  calls (wrapHandler managerResolvers "welcomer" "ready" Scenario.counting None
           [JObj []] Scenario.world).2 = [CallHandler "welcomer" "ready" [JObj []]].
Proof.
  rewrite (lifecycle_kinds_always_run "welcomer" "ready" Scenario.counting None
             [JObj []] Scenario.world).
  - reflexivity.
  - apply (bool_decide_unpack _). vm_compute. exact I.
Defined.

(** X6.  A wrapped handler rejects when the resolver of the event kind
    throws, and then with the resolver's exception.  When the resolver
    yields an id that is not an object -- guild ids are strings -- this is
    the only way: nothing the handler does can make the wrapped handler
    reject. *)
Theorem rejects_iff_resolver_throws {S} (resolvers : gmap string Resolver)
    (extensionId eventName : string) (handler : @Handler S) (bail : option bool)
    (args : list JsVal) (w : World S) (e : JsVal) :
  (∀ guildId, resolveGuildId resolvers eventName args = Normal guildId →
              isPrimitive guildId = true) →
  ((wrapHandler resolvers extensionId eventName handler bail args w).1 = Rejected e ↔
   resolveGuildId resolvers eventName args = Throw e).
Proof.
  intros _. split.
  - destruct (resolveGuildId resolvers eventName args) as [g|e'] eqn:Hr.
    + destruct (wrapHandler_calls resolvers extensionId eventName handler bail args w)
        as (v & w' & -> & _); [by exists g|]. discriminate.
    + rewrite (wrapHandler_resolver_throws _ _ _ _ _ _ _ e') by done. by intros [= ->].
  - intros Hr. by rewrite (wrapHandler_resolver_throws _ _ _ _ _ _ _ e).
Qed.

Lemma rejects_iff_resolver_throws_witness :
  (* a handler that throws, in a guild where the extension is enabled ... *)
  ((wrapHandler managerResolvers "greeter" "messageCreate" Scenario.throwing None
      (Scenario.messageIn "guild-1") Scenario.world).1 = Rejected (JStr "boom") ↔
   resolveGuildId managerResolvers "messageCreate" (Scenario.messageIn "guild-1")
   = Throw (JStr "boom"))
  (* ... and a channel event without a payload, whose resolver throws *)
  ∧ ((wrapHandler managerResolvers "greeter" "channelCreate" Scenario.counting None
        [] Scenario.world).1
     = Rejected (TypeError "Cannot read properties of undefined (reading 'isDMBased')") ↔
     resolveGuildId managerResolvers "channelCreate" []
     = Throw (TypeError "Cannot read properties of undefined (reading 'isDMBased')")).
Proof.
  split.
  - apply (rejects_iff_resolver_throws managerResolvers "greeter" "messageCreate"
             Scenario.throwing None (Scenario.messageIn "guild-1") Scenario.world
             (JStr "boom")).
    intros guildId Hresolved. vm_compute in Hresolved.
    injection Hresolved as <-. reflexivity.
  - apply (rejects_iff_resolver_throws managerResolvers "greeter" "channelCreate"
             Scenario.counting None [] Scenario.world).
    intros guildId Hresolved. vm_compute in Hresolved. discriminate Hresolved.
Defined.

(** X7.  The [bail] argument of [wrapHandler] changes nothing: with [true],
    [false] or left out, the wrapped handler returns the same value and
    leaves the same world. *)
Theorem bail_changes_nothing {S} (resolvers : gmap string Resolver)
    (extensionId eventName : string) (handler : @Handler S) (bail : option bool)
    (args : list JsVal) (w : World S) :
  wrapHandler resolvers extensionId eventName handler bail args w =
  wrapHandler resolvers extensionId eventName handler None args w.
Proof.
  unfold wrapHandler. destruct (resolveGuildId resolvers eventName args) as [g|e]; [|done].
  destruct g; try done;
    try (destruct (isEnabled extensionId _ w) as [[] w1]; simpl; [|done]);
    destruct (handler args _) as [[v|e] s']; try done; by destruct bail as [[]|].
Qed.

Lemma messageEvents_resolver :
  Forall (λ ev, managerResolvers !! ev = Some messageResolver) messageEvents.
Proof. repeat constructor; vm_compute; reflexivity. Qed.

(** X8.  A message, interaction or scheduled-event update whose payload has
    neither a guild with an id nor a [guildId] -- a direct message -- never
    reaches an extension: the occurrence is dropped with the error line
    ["Invalid event or failed to fetch guild"]. *)
Theorem guildless_message_dropped {S} (extensionId eventName : string)
    (handler : @Handler S) (bail : option bool)
    (props : list (string * JsVal)) (rest : list JsVal) (w : World S) :
  eventName ∈ messageEvents →
  isNullish (lookupProp "guild" props) = true →
  isNullish (lookupProp "guildId" props) = true →
  wrapHandler managerResolvers extensionId eventName handler bail (JObj props :: rest) w =
  (Fulfilled JUndefined,
   log LError [JStr "Invalid event or failed to fetch guild: "; JStr eventName] w).
Proof.
  intros Hin Hguild Hid. pose proof messageEvents_resolver as Hall.
  rewrite Forall_forall in Hall. specialize (Hall eventName Hin).
  apply wrapHandler_undefined. unfold resolveGuildId. rewrite Hall.
  unfold messageResolver, coalesce, optChain. simpl. rewrite Hguild. simpl.
  rewrite Hid. reflexivity.
Qed.

Lemma guildless_message_dropped_witness :
  wrapHandler managerResolvers "greeter" "messageCreate" Scenario.counting None
    [JObj [("guild", JNull); ("guildId", JNull); ("content", JStr "hello")]]
    Scenario.world =
  (Fulfilled JUndefined,
   log LError [JStr "Invalid event or failed to fetch guild: "; JStr "messageCreate"]
       Scenario.world).
Proof.
  apply (guildless_message_dropped "greeter" "messageCreate" Scenario.counting None
           [("guild", JNull); ("guildId", JNull); ("content", JStr "hello")] []
           Scenario.world).
  - apply (bool_decide_unpack _). vm_compute. exact I.
  - reflexivity.
  - reflexivity.
Defined.

(** ** The loader, further *)

Section LoaderMore.
Context {S : Type}.
Variable path_resolve : string → string → string.
Variable safeParse : JsVal → SafeParseResult.
Variable construct :
  string → string → string → ExtensionMetadata → S → Completion (Extension S) * S.

Abbreviation load' := (loadEach path_resolve safeParse construct).

Lemma loadExtensionInitializer_calls p n i meta (w : World S) :
  calls (loadExtensionInitializer construct p n i meta w).2 = calls w.
Proof.
  unfold loadExtensionInitializer. by destruct (construct _ _ _ _ _).
Qed.

(** The loop makes no call into the configuration service and none into
    handlers or hooks. *)
Lemma loadEach_calls extensionsPath entries loaded (w : World S) :
  calls (load' extensionsPath entries loaded w).2 = calls w.
Proof.
  revert loaded w. induction entries as [|entry entries IH]; intros loaded w; [done|].
  simpl. destruct (negb (isDirectory entry) || _); [apply IH|].
  destruct (metadataFile entry) as [[json|e]|]; try done.
  destruct (safeParse json) as [meta|err]; [|by rewrite IH].
  pose proof (loadExtensionInitializer_calls
                (path_resolve (path_resolve extensionsPath (entryName entry))
                              (default "./src/index.js" (meta_main meta)))
                (entryName entry) (meta_id meta) meta
                (log LDebug [JStr "Loading extension from directory: ";
                             JStr (path_resolve extensionsPath (entryName entry))] w))
    as Hc.
  destruct (loadExtensionInitializer _ _ _ _ _ _) as [[x|e] w2]; simpl in *;
    [by rewrite IH|done].
Qed.

End LoaderMore.

(** X9.  Entries of the extensions directory that are not directories, and
    the reserved [.extbuilds] directory, are passed over without a trace:
    the loop ends as it does on the listing without them. *)
Theorem loader_ignores_non_candidates {S} (path_resolve : string → string → string)
    (safeParse : JsVal → SafeParseResult)
    (construct : string → string → string → ExtensionMetadata → S →
                 Completion (Extension S) * S)
    (extensionsPath : string) (entries : list DirEntry)
    (loaded : list (Extension S)) (w : World S) :
  loadEach path_resolve safeParse construct extensionsPath entries loaded w =
  loadEach path_resolve safeParse construct extensionsPath
    (filter (λ e, isCandidate e = true) entries) loaded w.
Proof.
  revert loaded w. induction entries as [|entry entries IH]; intros loaded w; [done|].
  destruct (isCandidate entry) eqn:Hc.
  - rewrite filter_cons_True by done. simpl.
    unfold isCandidate in Hc. apply andb_true_iff in Hc as [-> Hn].
    apply negb_true_iff in Hn. rewrite Hn. simpl.
    destruct (metadataFile entry) as [[json|e]|]; try done.
    destruct (safeParse json); [|apply IH].
    destruct (loadExtensionInitializer _ _ _ _ _ _) as [[x|e] w2]; [apply IH|done].
  - rewrite filter_cons_False by (by rewrite Hc). simpl.
    unfold isCandidate in Hc.
    destruct (isDirectory entry); simpl in *; [|apply IH].
    apply negb_false_iff in Hc. rewrite Hc. apply IH.
Qed.

(** X10.  The list of loaded extensions only grows: when the loop returns,
    the extensions loaded before are still there, in place, followed by one
    new extension for each candidate directory whose manifest the schema
    accepted. *)
Theorem loader_appends_accepted {S} (path_resolve : string → string → string)
    (safeParse : JsVal → SafeParseResult)
    (construct : string → string → string → ExtensionMetadata → S →
                 Completion (Extension S) * S)
    (extensionsPath : string) (entries : list DirEntry)
    (loaded loaded' : list (Extension S)) (w w' : World S) :
  loadEach path_resolve safeParse construct extensionsPath entries loaded w
    = (Returned loaded', w') →
  ∃ added, loaded' = loaded ++ added ∧
           List.length added =
           List.length (filter (λ e, accepted safeParse e = true) entries).
Proof.
  revert loaded w. induction entries as [|entry entries IH]; intros loaded w.
  - simpl. intros [= <- _]. exists []. by rewrite app_nil_r.
  - simpl.
    destruct (isDirectory entry) eqn:Hd; simpl.
    2:{ intros Hrun. apply IH in Hrun as (added & -> & Hlen). exists added.
        rewrite filter_cons_False; [done|].
        unfold accepted, isCandidate. by rewrite Hd. }
    destruct (bool_decide (entryName entry = ".extbuilds")) eqn:Hn.
    { intros Hrun. apply IH in Hrun as (added & -> & Hlen). exists added.
      rewrite filter_cons_False; [done|].
      unfold accepted, isCandidate. by rewrite Hd, Hn. }
    destruct (metadataFile entry) as [[json|e]|] eqn:Hm;
      try (intros Hrun; discriminate Hrun).
    destruct (safeParse json) as [meta|err] eqn:Hp.
    + destruct (loadExtensionInitializer _ _ _ _ _ _) as [[x|e] w2];
        [|intros Hrun; discriminate Hrun].
      intros Hrun. apply IH in Hrun as (added & -> & Hlen).
      rewrite filter_cons_True
        by (unfold accepted, isCandidate; by rewrite Hd, Hn, Hm, Hp).
      exists (x :: added). rewrite <- app_assoc. simpl. by rewrite Hlen.
    + intros Hrun. apply IH in Hrun as (added & -> & Hlen). exists added.
      rewrite filter_cons_False; [done|].
      unfold accepted, isCandidate. by rewrite Hd, Hn, Hm, Hp.
Qed.

Lemma loader_appends_accepted_witness :
  ∃ added,
    (loadEach Scenario.resolve Scenario.safeParse Scenario.construct "/srv/extensions"
       [Scenario.welcomerDir; Scenario.readme; Scenario.extbuilds; Scenario.brokenDir;
        Scenario.pollsDir] [Scenario.A] Scenario.fresh).1
    = Returned (Scenario.A :: added) ∧ List.length added = 2.
Proof.
  destruct (loader_appends_accepted Scenario.resolve Scenario.safeParse Scenario.construct
              "/srv/extensions"
              [Scenario.welcomerDir; Scenario.readme; Scenario.extbuilds;
               Scenario.brokenDir; Scenario.pollsDir] [Scenario.A] _ Scenario.fresh _
              eq_refl) as (added & Heq & Hlen).
  exists added. split; [|exact Hlen].
  simpl in Heq |- *. by rewrite Heq.
Defined.

(** X11.  [boot] hands over to the configuration service exactly once, and
    last, whenever it returns: after registering the configuration of the
    extensions it loaded when the extensions directory is set and exists,
    on its own otherwise.  When loading throws or ends the process, the
    configuration service is not booted; in particular a path that exists
    and cannot be listed makes [boot] throw what [readdir] throws, with
    nothing logged and nothing called. *)
Theorem boot_boots_configuration_once {S} (path_resolve : string → string → string)
    (safeParse : JsVal → SafeParseResult)
    (construct : string → string → string → ExtensionMetadata → S →
                 Completion (Extension S) * S)
    (extensionsPath : option string) (existsSync : bool)
    (dir : Completion (list DirEntry)) (loaded : list (Extension S)) (w : World S) :
  let run := boot path_resolve safeParse construct extensionsPath existsSync dir
               loaded w in
  match run.1 with
  | Returned loaded' =>
      calls run.2 = calls w ++
        match pathSet extensionsPath with
        | Some _ =>
            if existsSync then [CallRegisterExtensionConfig (id <$> loaded')] else []
        | None => []
        end ++ [CallManualBoot]
  | _ => calls run.2 = calls w
  end
  ∧ match pathSet extensionsPath, existsSync, dir with
    | Some _, true, Throw e => run = (Threw e, w)
    | Some _, true, Normal _ => True
    | _, _, _ =>
        run = (Returned loaded,
               recordCall CallManualBoot (log LDebug [JStr "No extensions found"] w))
    end.
Proof.
  unfold boot, loadExtensions.
  destruct (pathSet extensionsPath) as [p|] eqn:Hp; [|done].
  destruct existsSync; [|done].
  destruct dir as [entries|e]; [|done]. simpl. split; [|done].
  pose proof (loadEach_calls path_resolve safeParse construct p entries loaded w) as Hc.
  destruct (loadEach _ _ _ _ _ _ _) as [[loaded'|e|code] w']; simpl in *;
    rewrite ?Hc; try done.
  by rewrite <- app_assoc.
Qed.

(** X12.  A candidate whose manifest cannot be read or is not JSON, or whose
    module or constructor throws, ends the loop with that exception: it is
    neither passed over like a manifest the schema refuses nor fatal to the
    process like a missing one, the entries after it are not looked at, and
    no extension is added for it. *)
Theorem unreadable_candidate_throws {S} (path_resolve : string → string → string)
    (safeParse : JsVal → SafeParseResult)
    (construct : string → string → string → ExtensionMetadata → S →
                 Completion (Extension S) * S)
    (extensionsPath : string) (before after : list DirEntry) (candidate : DirEntry)
    (loaded loaded' : list (Extension S)) (w w' : World S) :
  isCandidate candidate = true →
  loadEach path_resolve safeParse construct extensionsPath before loaded w
    = (Returned loaded', w') →
  let directory := path_resolve extensionsPath (entryName candidate) in
  let entering := log LDebug [JStr "Loading extension from directory: "; JStr directory] w' in
  let run := loadEach path_resolve safeParse construct extensionsPath
               (before ++ candidate :: after) loaded w in
  match metadataFile candidate with
  | Some (Throw e) => run = (Threw e, entering)
  | Some (Normal json) =>
      match safeParse json with
      | ParseSuccess meta =>
          let attempt :=
            loadExtensionInitializer construct
              (path_resolve directory (default "./src/index.js" (meta_main meta)))
              (entryName candidate) (meta_id meta) meta entering in
          match attempt.1 with
          | Throw e => run = (Threw e, attempt.2)
          | Normal _ => True
          end
      | ParseFailure _ => True
      end
  | None => True
  end.
Proof.
  intros Hc Hbefore directory entering run. subst run.
  rewrite loadEach_app, Hbefore. simpl.
  unfold isCandidate in Hc. apply andb_true_iff in Hc as [-> Hn].
  apply negb_true_iff in Hn. rewrite Hn. simpl.
  destruct (metadataFile candidate) as [[json|e]|]; try done.
  destruct (safeParse json) as [meta|err]; [|done]. cbv zeta.
  fold directory. fold entering.
  by destruct (loadExtensionInitializer _ _ _ _ _ _) as [[x|e] w2].
Qed.

Lemma unreadable_candidate_throws_witness :
  (loadEach Scenario.resolve Scenario.safeParse Scenario.construct "/srv/extensions"
     ([Scenario.welcomerDir] ++ garbledDir :: [Scenario.orphanDir]) [] Scenario.fresh).1
  = Threw (JObj [("name", JStr "SyntaxError")])
  ∧
  (loadEach Scenario.resolve Scenario.safeParse pickyConstruct "/srv/extensions"
     ([Scenario.welcomerDir] ++ Scenario.pollsDir :: [Scenario.orphanDir]) [] Scenario.fresh).1
  = Threw (JStr "polls needs a database").
Proof.
  split.
  - pose proof (unreadable_candidate_throws Scenario.resolve Scenario.safeParse
                  Scenario.construct "/srv/extensions" [Scenario.welcomerDir]
                  [Scenario.orphanDir] garbledDir [] _ Scenario.fresh _
                  eq_refl eq_refl) as H.
    cbv zeta in H.
    change (metadataFile garbledDir)
      with (Some (@Throw JsVal (JObj [("name", JStr "SyntaxError")]))) in H.
    cbv iota in H. by rewrite H.
  - pose proof (unreadable_candidate_throws Scenario.resolve Scenario.safeParse
                  pickyConstruct "/srv/extensions" [Scenario.welcomerDir]
                  [Scenario.orphanDir] Scenario.pollsDir [] _ Scenario.fresh _
                  eq_refl eq_refl) as H.
    exact (f_equal fst H).
Defined.

(** ** The pipeline, further *)


(** X13.  The progress callback writes one line per progress event that
    carries a total, in the order of the events, and none for an event
    whose total is unknown; it touches nothing but the stream, and without
    a stream it does nothing. *)
Theorem progress_lines_written {FS} (percentText : N → N → string) (stream : bool)
    (events : list (N * N)) (m : Machine FS) :
  reportProgress percentText stream events m =
  {| m_logs := m_logs m; outbound := outbound m; cacheStore := cacheStore m;
     now := now m;
     sink := sink m ++ (if stream then progressLines percentText events else []);
     files := files m |}.
Proof. apply reportProgress_machine. Qed.

(** X14.  When the catalog lookup yields no entry for the id -- the request
    failed, or the catalog does not list the id and the id is not the name
    of a member every object has -- the pipeline stops after two lines, the
    second being [E: Failed to fetch metadata of extension: <id>], returns
    [null] paired with the lookup's error (or [null]), and has not touched
    the file system. *)
Theorem missing_metadata_stops_pipeline {FS} `{FsApi FS} (extensionsPath : option string)
    (request : string → HttpAnswer) (path_join : string → string → string)
    (percentText : N → N → string) (p id : string) (stream : bool) (m : Machine FS) :
  pathSet extensionsPath = Some p →
  (getExtensionMetadata request id m).1.1 = None →
  is_Some (getExtensionMetadata request id m).1.2 ∨ id ∉ objectPrototypeMembers →
  let run := fetchAndInstallExtension extensionsPath request path_join percentText
               id stream m in
  run.1 = RetPair JNull (default JNull (getExtensionMetadata request id m).1.2) ∧
  sink run.2 = sink m ++
    (if stream then
       [ "Fetching metadata for extension " +:+ id +:+ "..." +:+ nl;
         "E: Failed to fetch metadata of extension: " +:+ id +:+ nl ]
     else []) ∧
  files run.2 = files m.
Proof.
  intros Hset Hnone _ run. subst run. unfold fetchAndInstallExtension. rewrite Hset.
  rewrite getExtensionMetadata_writeStream.
  destruct (getExtensionMetadata_keeps request id m) as [Hsink Hfiles].
  destruct (getExtensionMetadata request id m) as [[found err] m2]. simpl in *.
  subst found. destruct err as [e|]; destruct stream; simpl;
    rewrite ?Hsink, ?Hfiles, <- ?app_assoc, ?app_nil_r; done.
Qed.

Lemma missing_metadata_stops_pipeline_witness :
  let run := @fetchAndInstallExtension _ (Posix.api Scenario.archive [])
               (Some "/srv/extensions") Scenario.request Posix.join (λ _ _, "0")
               "polls" true (Scenario.machine Scenario.base) in
  run.1 = RetPair JNull JNull ∧
  sink run.2 = [ "Fetching metadata for extension polls..." +:+ nl;
                 "E: Failed to fetch metadata of extension: polls" +:+ nl ] ∧
  files run.2 = Scenario.base.
Proof.
  apply (@missing_metadata_stops_pipeline _ (Posix.api Scenario.archive [])
           (Some "/srv/extensions") Scenario.request Posix.join (λ _ _, "0")
           "/srv/extensions" "polls" true (Scenario.machine Scenario.base)).
  - reflexivity.
  - vm_compute. reflexivity.
  - right. apply (bool_decide_unpack _). vm_compute. exact I.
Defined.



(** X16.  Once the catalog entry is found, the stream always carries a
    closed progress segment: after the two opening lines come the sentinel
    [%] and a newline, the progress lines of the download, and again [%]
    and a newline -- also when the entry has no tarball or the download
    fails -- and only then whatever follows. *)
Theorem progress_segment_always_closed {FS} `{FsApi FS}
    (extensionsPath : option string) (request : string → HttpAnswer)
    (path_join : string → string → string) (percentText : N → N → string)
    (p id : string) (extension : ExtensionInfo) (m : Machine FS) :
  pathSet extensionsPath = Some p →
  (getExtensionMetadata request id m).1 = (Some extension, None) →
  let progress :=
    match tarballs extension with
    | [] => []
    | url :: _ =>
        let '(tmp, fs1) := systemPrefix "tmp" (files m) in
        progressLines percentText
          (downloadFile url tmp
             (info_id extension +:+ "-" +:+ info_version extension +:+ ".tar.gz") fs1).1.1
    end in
  (sink m ++
   [ "Fetching metadata for extension " +:+ id +:+ "..." +:+ nl;
     "Retrieving " +:+ label extension +:+
       " from the SudoBot Extension Repository (SER)..." +:+ nl;
     downloadProgressStreamEOF; nl ] ++
   progress ++ [downloadProgressStreamEOF; nl])
  `prefix_of`
  sink (fetchAndInstallExtension extensionsPath request path_join percentText id true m).2.
Proof.
  intros Hset Hfound progress. subst progress.
  unfold fetchAndInstallExtension. rewrite Hset.
  rewrite getExtensionMetadata_writeStream.
  destruct (getExtensionMetadata_keeps request id m) as [Hsink Hfiles].
  destruct (getExtensionMetadata request id m) as [[found err] m2].
  simpl in Hfound, Hsink, Hfiles. injection Hfound as -> ->.
  cbn [fst snd]. lazy beta iota zeta.
  match goal with
  | |- context [retrieveFailed _ _ _ ?x] => set (m4 := x)
  end.
  assert (sink m4 = sink m ++
            [ "Fetching metadata for extension " +:+ id +:+ "..." +:+ nl;
              "Retrieving " +:+ label extension +:+
                " from the SudoBot Extension Repository (SER)..." +:+ nl;
              downloadProgressStreamEOF; nl ]) as Hsink4.
  { subst m4. simpl. by rewrite Hsink, <- !app_assoc. }
  assert (files m4 = files m) as Hfiles4 by (subst m4; simpl; done).
  clearbody m4.
  destruct (tarballs extension) as [|url urls].
  { cbn [snd]. unfold retrieveFailed. simpl. rewrite Hsink4, <- !app_assoc. simpl.
    apply prefix_app. by eexists [_]. }
  rewrite Hfiles4.
  destruct (systemPrefix "tmp" (files m)) as [tmp fs1].
  destruct (downloadFile _ _ _ _) as [[events [filePath|e]] fs2]; cbn [fst snd].
  - match goal with
    | |- context [installExtension _ _ _ _ _ ?x] => set (m6 := x)
    end.
    assert (sink m6 = sink m ++
              [ "Fetching metadata for extension " +:+ id +:+ "..." +:+ nl;
                "Retrieving " +:+ label extension +:+
                  " from the SudoBot Extension Repository (SER)..." +:+ nl;
                downloadProgressStreamEOF; nl ] ++
              progressLines percentText events ++ [downloadProgressStreamEOF; nl]) as <-.
    { subst m6. rewrite reportProgress_machine. simpl.
      by rewrite Hsink4, <- !app_assoc. }
    clearbody m6.
    pose proof (installExtension_prefix extensionsPath path_join filePath extension true m6)
      as Hinstall.
    destruct (fs_rm _ _ _) as [[[]|e] fs3]; simpl; [done|].
    by apply prefix_app_r.
  - unfold retrieveFailed. rewrite reportProgress_machine. simpl.
    rewrite Hsink4, <- !app_assoc. simpl.
    apply prefix_app. do 4 apply prefix_cons. apply prefix_app. by eexists [_].
Qed.

Lemma progress_segment_always_closed_witness :
  [ "Fetching metadata for extension welcomer..." +:+ nl;
    "Retrieving Welcomer (1.0.0) from the SudoBot Extension Repository (SER)..." +:+ nl;
    "%"; nl; "50" +:+ nl; "100" +:+ nl; "%"; nl ]
  `prefix_of`
  sink (@fetchAndInstallExtension _ (flaky false true) (Some "/srv/extensions")
          Scenario.request Posix.join percentOf "welcomer" true
          (Scenario.machine Scenario.base)).2.
Proof.
  apply (@progress_segment_always_closed _ (flaky false true) (Some "/srv/extensions")
           Scenario.request Posix.join percentOf "/srv/extensions" "welcomer"
           Scenario.welcomer (Scenario.machine Scenario.base)).
  - reflexivity.
  - vm_compute. reflexivity.
Defined.

(** X17.  When unpacking the tarball fails, [installExtension] logs the
    error, writes [E: Unable to unpack extension: <id>] and stops: the
    rename is not attempted, and the file system is as the failed unpacking
    left it. *)
Theorem failed_unpacking_aborts {FS} `{FsApi FS} (extensionsPath : option string)
    (path_join : string → string → string) (p filePath : string)
    (extension : ExtensionInfo) (stream : bool) (m : Machine FS)
    (tmp : string) (fs1 fs2 : FS) (e : JsVal) :
  pathSet extensionsPath = Some p →
  systemPrefix ("tmp/" +:+ info_id extension +:+ "-" +:+ info_version extension)
               (files m) = (tmp, fs1) →
  tar_x filePath tmp fs1 = (Throw e, fs2) →
  let m' := installExtension extensionsPath path_join filePath extension stream m in
  sink m' = sink m ++
    (if stream then
       [ "Preparing to unpack " +:+ label extension +:+ "..." +:+ nl;
         "Unpacking " +:+ label extension +:+ "..." +:+ nl;
         "E: Unable to unpack extension: " +:+ info_id extension +:+ nl ]
     else []) ∧
  files m' = fs2 ∧
  m_logs m' = m_logs m ++ [ {| level := LError; parts := [e] |} ].
Proof.
  intros Hset Hprefix Hunpack m'. subst m'. unfold installExtension. rewrite Hset.
  assert (∀ chunk (x : Machine FS), files (writeStream stream chunk x) = files x)
    as Hw by (by intros; destruct stream).
  rewrite Hw, Hprefix, Hw. simpl. rewrite Hunpack.
  destruct stream; simpl; [|by rewrite app_nil_r].
  by rewrite <- !app_assoc.
Qed.

Lemma failed_unpacking_aborts_witness :
  let m' := @installExtension _ (flaky false true) (Some "/srv/extensions") Posix.join
              Scenario.tarball Scenario.welcomer true (Scenario.machine Scenario.base) in
  sink m' = [ "Preparing to unpack Welcomer (1.0.0)..." +:+ nl;
              "Unpacking Welcomer (1.0.0)..." +:+ nl;
              "E: Unable to unpack extension: welcomer" +:+ nl ] ∧
  files m' = Scenario.base ++ [(["opt"; "sudobot"; "tmp"; "welcomer-1.0.0"], true)] ∧
  m_logs m' = [ {| level := LError; parts := [Posix.errno "TAR_BAD_ARCHIVE"] |} ].
Proof.
  apply (@failed_unpacking_aborts _ (flaky false true) (Some "/srv/extensions") Posix.join
           "/srv/extensions" Scenario.tarball Scenario.welcomer true
           (Scenario.machine Scenario.base) "/opt/sudobot/tmp/welcomer-1.0.0"
           (Scenario.base ++ [(["opt"; "sudobot"; "tmp"; "welcomer-1.0.0"], true)])
           _ (Posix.errno "TAR_BAD_ARCHIVE")).
  - reflexivity.
  - vm_compute. reflexivity.
  - vm_compute. reflexivity.
Defined.

(** X18.  A failure to remove the temporary directory after the rename is
    advisory: the error is logged, the line written starts with [W:], not
    [E:], and the renamed extension stays where the rename put it -- the
    file system is what the failed removal left of the renamed one. *)
Theorem failed_cleanup_is_advisory {FS} `{FsApi FS} (extensionsPath : option string)
    (path_join : string → string → string) (p filePath : string)
    (extension : ExtensionInfo) (stream : bool) (m : Machine FS)
    (tmp : string) (fs1 fs2 fs3 fs4 : FS) (e : JsVal) :
  pathSet extensionsPath = Some p →
  systemPrefix ("tmp/" +:+ info_id extension +:+ "-" +:+ info_version extension)
               (files m) = (tmp, fs1) →
  tar_x filePath tmp fs1 = (Normal (), fs2) →
  fs_rename (path_join tmp (info_shortName extension +:+ "-" +:+ info_version extension))
            (path_join p (info_shortName extension)) fs2 = Normal fs3 →
  fs_rm tmp true fs3 = (Throw e, fs4) →
  let m' := installExtension extensionsPath path_join filePath extension stream m in
  sink m' = sink m ++
    (if stream then
       [ "Preparing to unpack " +:+ label extension +:+ "..." +:+ nl;
         "Unpacking " +:+ label extension +:+ "..." +:+ nl;
         "Setting up " +:+ label extension +:+ "..." +:+ nl;
         "Cleaning up caches and temporary files..." +:+ nl;
         "W: Failed to clean up temporary files for extension: " +:+
           info_id extension +:+ nl ]
     else []) ∧
  files m' = fs4 ∧
  m_logs m' = m_logs m ++ [ {| level := LError; parts := [e] |} ].
Proof.
  intros Hset Hprefix Hunpack Hrename Hrm m'. subst m'. unfold installExtension.
  rewrite Hset.
  assert (∀ chunk (x : Machine FS), files (writeStream stream chunk x) = files x)
    as Hw by (by intros; destruct stream).
  rewrite Hw, Hprefix, Hw. simpl. rewrite Hunpack, Hw. simpl. rewrite Hrename, Hw.
  simpl. rewrite Hrm.
  destruct stream; simpl; [|by rewrite app_nil_r].
  by rewrite <- !app_assoc.
Qed.

Lemma failed_cleanup_is_advisory_witness :
  let m' := @installExtension _ (flaky true false) (Some "/srv/extensions") Posix.join
              Scenario.tarball Scenario.welcomer true (Scenario.machine Scenario.base) in
  last (sink m') =
    Some ("W: Failed to clean up temporary files for extension: welcomer" +:+ nl) ∧
  Posix.node ["srv"; "extensions"; "welcomer"; "extension.json"] (files m') = Some false.
Proof.
  edestruct (@failed_cleanup_is_advisory _ (flaky true false) (Some "/srv/extensions")
               Posix.join "/srv/extensions" Scenario.tarball Scenario.welcomer true
               (Scenario.machine Scenario.base) "/opt/sudobot/tmp/welcomer-1.0.0"
               (Scenario.base ++ [(["opt"; "sudobot"; "tmp"; "welcomer-1.0.0"], true)]))
    as (Hsink & Hfiles & _).
  - reflexivity.
  - vm_compute. reflexivity.
  - vm_compute. reflexivity.
  - vm_compute. reflexivity.
  - vm_compute. reflexivity.
  - cbv zeta. rewrite Hsink, Hfiles. split; vm_compute; reflexivity.
Defined.

(** X19.  Without a stream the pipeline writes nowhere: whatever the
    configuration, the catalog and the file system do, the chunks collected
    on the output are what they were. *)
Theorem no_stream_no_output {FS} `{FsApi FS} (extensionsPath : option string)
    (request : string → HttpAnswer) (path_join : string → string → string)
    (percentText : N → N → string) (id : string) (m : Machine FS) :
  sink (fetchAndInstallExtension extensionsPath request path_join percentText
          id false m).2 = sink m.
Proof.
  unfold fetchAndInstallExtension.
  destruct (pathSet extensionsPath) as [p|] eqn:Hset; [|done].
  rewrite getExtensionMetadata_writeStream.
  destruct (getExtensionMetadata_keeps request id m) as [Hsink _].
  destruct (getExtensionMetadata request id m) as [[found err] m2].
  simpl in Hsink. cbn [fst snd]. lazy beta iota zeta.
  destruct err as [e|]; [done|]. destruct found as [extension|]; [|done].
  destruct (tarballs extension) as [|url urls]; [done|].
  destruct (systemPrefix _ _) as [tmp fs1].
  destruct (downloadFile _ _ _ _) as [[events [filePath|e]] fs2]; cbn [fst snd].
  2:{ unfold retrieveFailed. rewrite reportProgress_machine. simpl.
      by rewrite app_nil_r. }
  match goal with
  | |- context [installExtension _ _ _ _ _ ?x] => set (m6 := x)
  end.
  assert (sink m6 = sink m) as <-.
  { subst m6. rewrite reportProgress_machine. simpl. by rewrite app_nil_r. }
  clearbody m6.
  assert (sink (installExtension extensionsPath path_join filePath extension false m6)
          = sink m6) as Hinstall.
  { unfold installExtension. rewrite Hset.
    destruct (systemPrefix _ _) as [tmp' fs1'].
    destruct (tar_x _ _ _) as [[[]|e] fs2']; [|done].
    destruct (fs_rename _ _ _) as [fs3|e]; [|done].
    by destruct (fs_rm _ _ _) as [[[]|e] fs4]. }
  by destruct (fs_rm _ _ _) as [[[]|e] fs3].
Qed.

(** X20.  An answer of the catalog server with a status other than 200, or
    no response at all, without a transport error gives the caller of
    [getExtensionMetadata] neither an entry nor an error -- also when the
    body does list the id. *)
Theorem non_200_gives_no_entry_no_error (a : HttpAnswer) (id : string) :
  error a = None →
  (∀ r, response a = Some r → status r ≠ 200%Z) →
  getExtensionMetadataResult id (fetchFinish a) = (None, None).
Proof.
  intros Herr Hstatus. unfold fetchFinish. rewrite Herr.
  destruct (response a) as [r|] eqn:Hr; [|done].
  by rewrite decide_False by (by apply Hstatus).
Qed.

Lemma non_200_gives_no_entry_no_error_witness :
  getExtensionMetadataResult "welcomer"
    (fetchFinish {| response := Some {| status := 404; data := Scenario.catalog |};
                    error := None |}) = (None, None).
Proof.
  apply non_200_gives_no_entry_no_error; [reflexivity|].
  intros r [= <-]. simpl. lia.
Defined.

(** ** Loading event listeners *)

Section EventFacts.
Context {S : Type}.
Variable resolvers : gmap string Resolver.

Lemma EventTree_nested_ind (P : EventTree S → Prop) :
  (∀ file module, P (EventFile file module)) →
  (∀ file children, Forall P children → P (EventDir file children)) →
  ∀ entry, P entry.
Proof.
  intros Hfile Hdir. fix IH 1. intros [file module|file children]; [apply Hfile|].
  apply Hdir. induction children as [|c cs IHcs]; constructor; [apply IH|apply IHcs].
Qed.

Lemma loadEntry_dir extensionId file children (st : Listeners S * World S) :
  loadEntry resolvers extensionId (EventDir file children) st =
  loadEvents resolvers extensionId children st.
Proof.
  simpl. revert st. induction children as [|c cs IH]; intros st; [done|].
  simpl. destruct (loadEntry resolvers extensionId c st) as [[[]|e] st']; [apply IH|done].
Qed.

Lemma eventFiles_dir file (children : list (EventTree S)) :
  eventFiles (EventDir file children) = eventFilesIn children.
Proof. simpl. induction children as [|c cs IH]; [done|]. simpl. by rewrite IH. Qed.

Lemma loadEntry_registers extensionId entry (st st' : Listeners S * World S) r :
  loadEntry resolvers extensionId entry st = (r, st') →
  ∃ added, st'.1 = st.1 ++ added ∧
           match r with
           | Normal _ => List.length added = eventFiles entry
           | Throw _ => List.length added < eventFiles entry
           end.
Proof.
  revert st st' r. induction entry as [file module|file children IH]
    using EventTree_nested_ind; intros st st' r.
  - simpl. destruct (isEventFile file).
    + unfold loadEvent, loadEventClass.
      destruct (module _) as [[event|e] s]; intros [= <- <-]; simpl.
      * by eexists [_].
      * exists []. rewrite app_nil_r. split; [done|]. simpl. lia.
    + intros [= <- <-]. exists []. by rewrite app_nil_r.
  - rewrite loadEntry_dir, eventFiles_dir. revert st.
    induction IH as [|c cs Hc _ IHcs]; intros st.
    + simpl. intros [= <- <-]. exists []. by rewrite app_nil_r.
    + simpl. destruct (loadEntry resolvers extensionId c st) as [[[]|e] st1] eqn:Hrun.
      * intros Hrest. apply Hc in Hrun as (added1 & Heq1 & Hlen1).
        apply IHcs in Hrest as (added2 & Heq2 & Hlen2).
        exists (added1 ++ added2). rewrite Heq2, Heq1, <- app_assoc, length_app.
        split; [done|]. destruct r; lia.
      * intros [= <- <-]. apply Hc in Hrun as (added1 & Heq1 & Hlen1).
        exists added1. split; [done|]. lia.
Qed.

Lemma loadEvents_registers extensionId files (st st' : Listeners S * World S) r :
  loadEvents resolvers extensionId files st = (r, st') →
  ∃ added, st'.1 = st.1 ++ added ∧
           match r with
           | Normal _ => List.length added = eventFilesIn files
           | Throw _ => List.length added < eventFilesIn files
           end.
Proof.
  rewrite <- (loadEntry_dir extensionId EmptyString), <- (eventFiles_dir EmptyString).
  apply loadEntry_registers.
Qed.

Lemma loadEvents_app extensionId before after (st : Listeners S * World S) :
  loadEvents resolvers extensionId (before ++ after) st =
  match loadEvents resolvers extensionId before st with
  | (Normal _, st1) => loadEvents resolvers extensionId after st1
  | (Throw e, st1) => (Throw e, st1)
  end.
Proof.
  revert st. induction before as [|entry before IH]; intros st; [done|].
  simpl. destruct (loadEntry resolvers extensionId entry st) as [[[]|e] st1]; [apply IH|done].
Qed.

End EventFacts.



(** X22.  When importing an event file throws, [loadEvents] ends with that
    exception, at once and with nothing undone: the listeners are those
    registered for the files walked before -- one for each event file among
    them, after the listeners there were -- the state is as the failed
    import left it, and the files after it are not imported, whatever they
    are.  A walk that was entered from a directory above ends the walk of
    that directory in the same way. *)
Theorem failed_import_keeps_earlier_listeners {S} (resolvers : gmap string Resolver)
    (extensionId : string) (before after : list (EventTree S)) (file : string)
    (module : S → Completion (EventListener S) * S)
    (st st1 : Listeners S * World S) (e : JsVal) (s : S) :
  loadEvents resolvers extensionId before st = (Normal (), st1) →
  isEventFile file = true →
  module (ext st1.2) = (Throw e, s) →
  let failed := (Throw e, (st1.1, setExt s st1.2)) in
  loadEvents resolvers extensionId (before ++ EventFile file module :: after) st = failed
  ∧ (∃ added, st1.1 = st.1 ++ added ∧ List.length added = eventFilesIn before)
  ∧ ∀ directory above below st0,
      loadEvents resolvers extensionId above st0 = (Normal (), st) →
      loadEvents resolvers extensionId
        (above ++ EventDir directory (before ++ EventFile file module :: after) :: below)
        st0 = failed.
Proof.
  intros Hbefore Hfile Hmodule failed.
  assert (loadEvents resolvers extensionId (before ++ EventFile file module :: after) st
          = failed) as Hrun.
  { rewrite loadEvents_app, Hbefore. simpl. rewrite Hfile. unfold loadEvent.
    by rewrite Hmodule. }
  split; [done|]. split.
  - by apply (loadEvents_registers resolvers extensionId before st st1 (Normal ())).
  - intros directory above below st0 Habove.
    rewrite loadEvents_app, Habove.
    change (loadEvents resolvers extensionId (EventDir directory ?children :: below) st)
      with (match loadEntry resolvers extensionId (EventDir directory children) st with
            | (Normal _, st') => loadEvents resolvers extensionId below st'
            | (Throw e, st') => (Throw e, st')
            end).
    by rewrite loadEntry_dir, Hrun.
Qed.

Lemma failed_import_keeps_earlier_listeners_witness :
  let run := loadEvents managerResolvers "greeter"
               (eventsDir ++
                EventFile "Broken.js" (λ n, (Throw (JStr "syntax error"), S n)) ::
                [EventFile "Late.js" (λ n, (Throw (JStr "never imported"), n))])
               ([], Scenario.world) in
  run.1 = Throw (JStr "syntax error") ∧ run.2.1.*1 = ["messageCreate"; "guildCreate"]
  ∧ ext run.2.2 = 1.
Proof.
  intros run.
  destruct (failed_import_keeps_earlier_listeners managerResolvers "greeter" eventsDir
              [EventFile "Late.js" (λ n, (Throw (JStr "never imported"), n))]
              "Broken.js" (λ n, (Throw (JStr "syntax error"), S n))
              ([], Scenario.world)
              (loadEvents managerResolvers "greeter" eventsDir ([], Scenario.world)).2
              (JStr "syntax error") 1 eq_refl eq_refl eq_refl) as (Hrun & _ & _).
  fold run in Hrun. rewrite Hrun. split; [reflexivity|]. split; reflexivity.
Defined.

(** ** Activation, further *)

Lemma postConstruct_app {S} (before after : list (Extension S)) (w : World S) :
  postConstruct (before ++ after) w =
  match postConstruct before w with
  | (Fulfilled _, w') => postConstruct after w'
  | other => other
  end.
Proof.
  revert w. induction before as [|x xs IH]; intros w; [done|].
  simpl. destruct (ext_postConstruct x _) as [[[]|e] s]; [|done].
  destruct (ext_register x _) as [[[]|e] s2]; [apply IH|done].
Qed.

(** X23.  A hook that throws ends the activation with that exception: when
    the post-construction hook of an extension throws, its registration hook
    is not called, and in either case no hook of the extensions after it is
    called, while the extensions before it stay activated. *)
Theorem throwing_hook_stops_activation {S} (before after : list (Extension S))
    (extension : Extension S) (w w' : World S) (v : JsVal) :
  postConstruct before w = (Fulfilled v, w') →
  let entering :=
    recordCall (CallPostConstruct (id extension))
      (log LDebug [JStr ("Setting up extension: " +:+ id extension +:+ " (" +:+
                         name extension +:+ ")")] w') in
  let run := postConstruct (before ++ extension :: after) w in
  match ext_postConstruct extension (ext w') with
  | (Throw e, s) =>
      run.1 = Rejected e ∧
      calls run.2 = calls w ++ interleaved before ++ [CallPostConstruct (id extension)]
  | (Normal _, s) =>
      match ext_register extension s with
      | (Throw e, s') =>
          run.1 = Rejected e ∧
          calls run.2 = calls w ++ interleaved before ++
                        [CallPostConstruct (id extension); CallRegister (id extension)]
      | (Normal _, _) => True
      end
  end.
Proof.
  intros Hbefore entering run. subst run.
  rewrite postConstruct_app, Hbefore. simpl.
  apply postConstruct_calls in Hbefore.
  destruct (ext_postConstruct extension (ext w')) as [[[]|e] s]; simpl.
  - destruct (ext_register extension s) as [[[]|e] s']; [done|]. simpl.
    rewrite Hbefore, <- !app_assoc. done.
  - rewrite Hbefore, <- !app_assoc. done.
Qed.

Lemma throwing_hook_stops_activation_witness :
  let run := postConstruct ([Scenario.A] ++ faulty :: [Scenario.B]) Scenario.fresh in
  run.1 = Rejected (JStr "cannot register commands") ∧
  calls run.2 = [CallPostConstruct "a"; CallRegister "a";
                 CallPostConstruct "faulty"; CallRegister "faulty"].
Proof.
  exact (throwing_hook_stops_activation [Scenario.A] [Scenario.B] faulty Scenario.fresh
           (postConstruct [Scenario.A] Scenario.fresh).2 JUndefined eq_refl).
Defined.

(** ** The warn command *)

(** X24.  Whenever [WarnCommand.execute] returns it has sent exactly one
    response, an error or the overview; it asks for a warning at most once,
    and only when the invoker is a guild member whom the permission manager
    allows to moderate the target; and it asks for the target not to be
    notified only when a chat-input command carries [notify] set to
    false. *)
Theorem warn_answers_once (context : WarnContext) (reason : option string)
    (canModerate : Completion bool)
    (createWarning : option string → bool → Completion (JsVal * string)) :
  let run := warnExecute context reason canModerate createWarning in
  (run.1 = Normal () → List.length (filter (λ a, isResponse a = true) run.2) = 1) ∧
  (List.length (filter (λ a, isResponse a = false) run.2) ≤ 1)%nat ∧
  ∀ r notify, CreateWarning r notify ∈ run.2 →
    ctx_member context = true ∧ canModerate = Normal true ∧ r = reason ∧
    (notify = false ↔ ctx_isChatInput context = true ∧ ctx_notify context = Some false).
Proof.
  unfold warnExecute.
  destruct context as [member chat option]. simpl.
  destruct member; simpl.
  2:{ split; [done|]. split; [lia|]. intros r k Hin.
      apply elem_of_cons in Hin as [Hin|Hin]; [discriminate Hin|].
      by apply elem_of_nil in Hin. }
  destruct canModerate as [[]|e]; simpl.
  3:{ split; [done|]. split; [lia|]. intros r k Hin. by apply elem_of_nil in Hin. }
  2:{ split; [done|]. split; [lia|]. intros r k Hin.
      apply elem_of_cons in Hin as [Hin|Hin]; [discriminate Hin|].
      by apply elem_of_nil in Hin. }
  assert (∀ k, k = negb chat || negb (bool_decide (option = Some false)) →
               (k = false ↔ chat = true ∧ option = Some false)) as Hnotify.
  { intros k ->. destruct chat; simpl; [|naive_solver].
    rewrite negb_false_iff, bool_decide_eq_true. naive_solver. }
  assert (∀ r k rest,
            CreateWarning r k ∈
              CreateWarning reason (negb chat || negb (bool_decide (option = Some false)))
              :: rest →
            (∀ r' k', CreateWarning r' k' ∉ rest) →
            true = true ∧ Normal true = Normal true ∧ r = reason ∧
            (k = false ↔ chat = true ∧ option = Some false)) as Hcreated.
  { intros r k rest Hin Hrest. apply elem_of_cons in Hin as [Hin|Hin].
    - injection Hin as -> ->. split; [done|]. split; [done|]. split; [done|].
      by apply Hnotify.
    - by destruct (Hrest r k). }
  destruct (createWarning reason _) as [[embed status]|e]; simpl.
  - destruct (decide (status = "failed")) as [Hs|Hs]; simpl;
      (split; [done|]); (split; [lia|]);
      intros r k Hin; apply (Hcreated r k _ Hin);
      intros r' k' Hin'; apply elem_of_cons in Hin' as [Hin'|Hin'];
      try discriminate Hin'; by apply elem_of_nil in Hin'.
  - split; [done|]. split; [lia|].
    intros r k Hin. apply (Hcreated r k _ Hin).
    intros r' k' Hin'. by apply elem_of_nil in Hin'.
Qed.
